(** * Prompt-Enhancer: negatives_generator.py

    A shallow embedding of the list generators of [negatives_generator.py]
    and the properties of its combination and budgeting logic.

    Python values are modelled as follows.
    - [str] is a sequence of Unicode code points ([list N]); [len] counts
      code points, as Python does.
    - A list is a Rocq [list]; indexing is stdpp's lookup, and an index out
      of range raises [IndexError].
    - An [int] that only counts is a [nat]; the character budget is a [Z].
    - A raised exception is the [Raise] outcome of [result].
    - The module-level random generator is an explicit entropy tape [rng]
      threaded through every function that draws from it. *)

From Stdlib Require Import ZArith NArith Strings.String Strings.Ascii Lia.
From Stdlib Require Import DecimalString.
From stdpp Require Import base tactics option list.

Local Open Scope nat_scope.

(** * Python values *)

(** ** Strings *)

Abbreviation char := N.
Abbreviation str := (list char).

(** An ASCII literal, as the code points of its characters. *)
Fixpoint lit (s : string) : str :=
  match s with
  | EmptyString => []
  | String a s' => N_of_ascii a :: lit s'
  end.

(** [len(x)] as a Python int. *)
Definition len {A} (l : list A) : Z := Z.of_nat (length l).

(** [sep.join(l)]. *)
Fixpoint join (sep : str) (l : list str) : str :=
  match l with
  | [] => []
  | [x] => x
  | x :: l' => x ++ sep ++ join sep l'
  end.

(** [f"{a} {b}"] on two strings. *)
Definition fmt2 (a b : str) : str := a ++ lit " " ++ b.

(** ** Exceptions *)

Inductive exn : Type :=
  | IndexError
  | ZeroDivisionError
  | UnboundLocalError.

Inductive result (A : Type) : Type :=
  | Return (a : A)
  | Raise (e : exn).
Arguments Return {A} a.
Arguments Raise {A} e.

Definition bind {A B} (m : result A) (k : A -> result B) : result B :=
  match m with
  | Return a => k a
  | Raise e => Raise e
  end.

Notation "x <- e ;; k" := (bind e (fun x => k))
  (at level 100, e at next level, k at level 200, right associativity,
   only parsing).

(** [l[i]] for a non-negative index. *)
Definition getitem {A} (l : list A) (i : nat) : result A :=
  match l !! i with
  | Some x => Return x
  | None => Raise IndexError
  end.

(** [a % b] on non-negative ints. *)
Definition py_mod (a b : nat) : result nat :=
  match b with
  | 0 => Raise ZeroDivisionError
  | S _ => Return (a mod b)
  end.

(** A [for] loop over a sequence fixed at loop entry ([range(n)]), with the
    loop-carried variables as the accumulator. *)
Fixpoint for_each {A S} (xs : list A) (body : S -> A -> result S) (s : S)
  : result S :=
  match xs with
  | [] => Return s
  | x :: xs' => s' <- body s x ;; for_each xs' body s'
  end.

(** [l.copy()] on the value of the list. *)
Definition copy {A} (l : list A) : list A := l.

(** ** The random generator *)

(** The state of Python's shared generator: the draws still to come.  Any
    sequence of outcomes is some tape; a tape that has run out keeps
    drawing 0. *)
Abbreviation rng := (list nat).

Definition Rand (A : Type) : Type := rng -> result (A * rng).

Definition rret {A} (a : A) : Rand A := fun g => Return (a, g).

Definition rbind {A B} (m : Rand A) (k : A -> Rand B) : Rand B :=
  fun g =>
    match m g with
    | Return (a, g') => k a g'
    | Raise e => Raise e
    end.

Definition lift {A} (r : result A) : Rand A :=
  fun g =>
    match r with
    | Return a => Return (a, g)
    | Raise e => Raise e
    end.

Notation "x <~ e ;; k" := (rbind e (fun x => k))
  (at level 100, e at next level, k at level 200, right associativity,
   only parsing).

(** [random._randbelow(n)], called with [n > 0] only. *)
Definition randbelow (n : nat) : Rand nat :=
  fun g =>
    match g with
    | [] => Return (0, [])
    | x :: g' => Return (x mod n, g')
    end.

(** [random.choice(seq)]. *)
Definition choice {A} (seq : list A) : Rand A :=
  match length seq with
  | 0 => lift (Raise IndexError)
  | S _ => i <~ randbelow (length seq) ;; lift (getitem seq i)
  end.

(** [x[i], x[j] = x[j], x[i]]: both reads happen before the two writes. *)
Definition swap {A} (x : list A) (i j : nat) : result (list A) :=
  xj <- getitem x j ;;
  xi <- getitem x i ;;
  Return (<[j := xi]> (<[i := xj]> x)).

Fixpoint for_each_rand {A S} (xs : list A) (body : S -> A -> Rand S) (s : S)
  : Rand S :=
  match xs with
  | [] => rret s
  | x :: xs' => s' <~ body s x ;; for_each_rand xs' body s'
  end.

(** [random.shuffle(x)], on the value of the list:
    [for i in reversed(range(1, len(x))): j = randbelow(i + 1); swap]. *)
Definition shuffle {A} (x : list A) : Rand (list A) :=
  for_each_rand (reverse (seq 1 (length x - 1)))
    (fun x i => j <~ randbelow (i + 1) ;; lift (swap x i j))
    x.

(** ** Library string operations used by parse_input *)

Definition comma : char := 44%N.
Definition semicolon : char := 59%N.

(** [str.isspace] on one code point: the whitespace table of CPython, which
    is also what [\s] matches in a [str] pattern. *)
Definition isspace (c : char) : bool :=
  ((9 <=? c) && (c <=? 13) || (28 <=? c) && (c <=? 32)
   || (c =? 133) || (c =? 160) || (c =? 5760)
   || (8192 <=? c) && (c <=? 8202)
   || (c =? 8232) || (c =? 8233) || (c =? 8239) || (c =? 8287)
   || (c =? 12288))%N.

Fixpoint lstrip (s : str) : str :=
  match s with
  | [] => []
  | c :: s' => if isspace c then lstrip s' else s
  end.

Definition rstrip (s : str) : str := reverse (lstrip (reverse s)).

(** [s.strip()]. *)
Definition strip (s : str) : str := rstrip (lstrip s).

(** [s.split(sep)] for a one-character separator: every occurrence of the
    separator ends a piece, so there is always at least one piece. *)
Fixpoint split (sep : char) (s : str) : list str :=
  match s with
  | [] => [[]]
  | c :: s' =>
      if (c =? sep)%N then [] :: split sep s'
      else match split sep s' with
           | piece :: pieces => (c :: piece) :: pieces
           | [] => [[c]]
           end
  end.

(** The fragment of regular expressions that the program uses: a sequence
    of character classes, each matched once, [*] or [+]. *)
Inductive quantifier : Type := Once | ZeroOrMore | OneOrMore.

Definition regex : Type := list ((char -> bool) * quantifier).

(** Greedy repetition with backtracking: take as many characters of the
    class as possible, giving them back one by one while the rest of the
    pattern fails.  The result is the number of characters matched. *)
Fixpoint star (cls : char -> bool) (rest : str -> option nat) (s : str)
  : option nat :=
  match s with
  | [] => rest []
  | c :: s' =>
      if cls c then
        match star cls rest s' with
        | Some n => Some (S n)
        | None => rest s
        end
      else rest s
  end.

(** A match of the pattern at the start of the string. *)
Fixpoint re_match (p : regex) : str -> option nat :=
  match p with
  | [] => fun _ => Some 0
  | (cls, q) :: p' =>
      let rest := re_match p' in
      match q with
      | Once => fun s =>
          match s with
          | c :: s' => if cls c then S <$> rest s' else None
          | [] => None
          end
      | ZeroOrMore => star cls rest
      | OneOrMore => fun s =>
          match s with
          | c :: s' => if cls c then S <$> star cls rest s' else None
          | [] => None
          end
      end
  end.

(** The scan of [re.sub]: leftmost, non-overlapping matches are replaced,
    [skip] counting the characters of the current match still to pass.  The
    two patterns of the program match at least one character, so the
    treatment of empty matches is left out. *)
Fixpoint sub_scan (p : regex) (repl s : str) (skip : nat) : str :=
  match s with
  | [] => []
  | c :: s' =>
      match skip with
      | S k => sub_scan p repl s' k
      | 0 =>
          match re_match p s with
          | Some (S n) => repl ++ sub_scan p repl s' n
          | _ => c :: sub_scan p repl s' 0
          end
      end
  end.

(** [re.sub(pattern, repl, string)]. *)
Definition re_sub (p : regex) (repl s : str) : str := sub_scan p repl s 0.

(** * The program *)

(** ** parse_input *)

(** [r'[;]+'] *)
Definition semicolons : regex := [(fun c => (c =? semicolon)%N, OneOrMore)].

(** [r'\s*,\s*'] *)
Definition comma_spacing : regex :=
  [(isspace, ZeroOrMore); (fun c => (c =? comma)%N, Once);
   (isspace, ZeroOrMore)].

Definition parse_input (raw_input : str) : list str :=
  let normalized := re_sub semicolons (lit ",") raw_input in
  let normalized := re_sub comma_spacing (lit ",") normalized in
  let items :=
    strip <$> filter (fun item => strip item <> []) (split comma normalized) in
  items.

(** ** generate_negated_list *)

Definition negative_modifiers : list str := [lit "not"; lit "no"; lit "un-"].

Definition generate_negated_list (input_items : list str) : Rand (list str) :=
  for_each_rand input_items
    (fun negated_items item =>
       modifier <~ choice negative_modifiers ;;
       rret (negated_items ++ [fmt2 modifier item]))
    [].

(** ** generate_bad_descriptor_list *)

Definition generate_bad_descriptor_list (input_items descriptors : list str)
  : Rand (list str) :=
  shuffled_descriptors <~ shuffle (copy descriptors) ;;
  loop <~ lift
    (for_each (seq 0 (length shuffled_descriptors))
       (fun '(bad_terms, desc_index, item_index) _ =>
          d <- py_mod desc_index (length shuffled_descriptors) ;;
          desc <- getitem shuffled_descriptors d ;;
          m <- py_mod item_index (length input_items) ;;
          item <- getitem input_items m ;;
          let term := fmt2 desc item in
          Return (bad_terms ++ [term], desc_index + 1, item_index + 1))
       ([], 0, 0)) ;;
  let '(bad_terms, _, _) := loop in
  rret bad_terms.

(** ** combine_lists *)

(** The loop of [combine_lists]: [break] leaves with the terms accepted so
    far. *)
Fixpoint combine_loop (combined_terms bad_list : list str) (length_limit : Z)
  : list str :=
  match bad_list with
  | [] => combined_terms
  | bad_term :: rest =>
      let test_list := combined_terms ++ [bad_term] in
      let test_string := join (lit ", ") test_list in
      if (len test_string >? length_limit)%Z then combined_terms
      else combine_loop (combined_terms ++ [bad_term]) rest length_limit
  end.

(** [combined_terms] is bound only in the ["negated_first"] branch; the
    [return] reads it in every case. *)
Definition combine_lists (negated_list bad_list : list str) (length_limit : Z)
    (combination_type : str) : result (list str) :=
  let combined_terms : option (list str) :=
    if bool_decide (combination_type = lit "negated_first")
    then Some (combine_loop negated_list bad_list length_limit)
    else None in
  match combined_terms with
  | Some terms => Return terms
  | None => Raise UnboundLocalError
  end.

(** ** generate_positive_list *)

Definition generate_positive_list {A B} (input_items : list A)
    (combined_negative_list : list B) : result (list A) :=
  let target_count := length combined_negative_list in
  for_each (seq 0 target_count)
    (fun positive_terms i =>
       k <- py_mod i (length input_items) ;;
       item <- getitem input_items k ;;
       Return (positive_terms ++ [item]))
    [].

(** ** build_versions *)

(** [str(n)] for a non-negative int. *)
Definition str_of_nat (n : nat) : str :=
  lit (NilEmpty.string_of_uint (Nat.to_uint n)).

(** The value is what the four [print] calls write, one entry per call. *)
Definition build_versions (input_items descriptors : list str)
  : Rand (list str) :=
  negated_list <~ generate_negated_list input_items ;;
  bad_descriptor_list <~
    generate_bad_descriptor_list input_items descriptors ;;
  combined_negative_list <~
    lift (combine_lists negated_list bad_descriptor_list 1000
            (lit "negated_first")) ;;
  positive_list <~
    lift (generate_positive_list input_items combined_negative_list) ;;
  let good_version := join (lit ", ") positive_list in
  let bad_version := join (lit ", ") combined_negative_list in
  rret [ [10%N] ++ lit "Good version ("
           ++ str_of_nat (length positive_list) ++ lit " terms):";
         good_version;
         [10%N] ++ lit "Bad version ("
           ++ str_of_nat (length combined_negative_list) ++ lit " terms):";
         bad_version ].

(** ** main: the built-in catalog *)

(** The triple-quoted block of [main]: a line break and four spaces, the
    comma-separated names, a line break and four spaces.  The one character
    outside ASCII is U+00F3 in the 26th name. *)
Definition raw_descs : str :=
  [10%N] ++ lit "    "
  ++ lit "Horrorcore, Rockabilly, Soundtrack, kid's, children's, Christmas, "
  ++ lit "holiday, jingle, oldies, Teen, Vocaloid, idol, K-Pop, mandarin, "
  ++ lit "LGBT, Swing, Country, Anime, Black Metal, Straight Edge, "
  ++ lit "Psychobilly, mediocre, Parody, humorous, Comedy, Reggaet"
  ++ [243%N] ++ lit "n, "
  ++ lit "Drill, Future Bass, Big Room House, Dubstep, Bounce, Hardstyle, "
  ++ lit "Trance, Jersey Club, Footwork, Chiptune, Psytrance, Moombahton, "
  ++ lit "Riddim Dubstep, Tech-House, Phonk, Electro-swing, Cumbia, Tango, "
  ++ lit "Bossa Nova, Samba, Dancehall, Bhangra, Disco, Polka, Vaporwave, "
  ++ lit "Minimal Techno, Blues, Sea Shanty, Lo-fi Hip-Hop, Synthwave, K-pop"
  ++ [10%N] ++ lit "    ".

(** [[desc.strip() for desc in raw_descs.split(",") if desc.strip()]] *)
Definition descriptors : list str :=
  strip <$> filter (fun desc => strip desc <> []) (split comma raw_descs).

(** * The normalizer of the specification *)

(** The Item Normalizer in the words of the specification, one function per
    step, to be compared with [parse_input]. *)
Module NormalizerSpec.

(** Replace every run of one or more semicolons with a single comma;
    [in_run] tells that the previous character was a semicolon. *)
Fixpoint semicolon_runs (in_run : bool) (s : str) : str :=
  match s with
  | [] => []
  | c :: s' =>
      if (c =? semicolon)%N then
        if in_run then semicolon_runs true s'
        else comma :: semicolon_runs true s'
      else c :: semicolon_runs false s'
  end.

(** The whitespace that starts [s] runs up to a comma. *)
Definition before_comma (s : str) : bool :=
  match lstrip s with
  | c :: _ => (c =? comma)%N
  | [] => false
  end.

(** Collapse any whitespace surrounding a comma to nothing: a whitespace
    character goes when its run of whitespace touches a comma on either
    side; [after_comma] tells that only whitespace separates this position
    from the previous comma. *)
Fixpoint collapse (after_comma : bool) (s : str) : str :=
  match s with
  | [] => []
  | c :: s' =>
      if (c =? comma)%N then c :: collapse true s'
      else if isspace c then
        if after_comma || before_comma s' then collapse after_comma s'
        else c :: collapse false s'
      else c :: collapse false s'
  end.

(** Split on commas; trim each piece; discard empty pieces; the order is
    that of the pieces. *)
Definition normalize (raw : str) : list str :=
  let replaced := semicolon_runs false raw in
  let collapsed := collapse false replaced in
  filter (fun piece => piece <> []) (strip <$> split comma collapsed).

End NormalizerSpec.

(** * The same two functions on list objects

    The definitions above work on the values of the lists.  To tell what a
    call does to the lists it is given, [generate_bad_descriptor_list] and
    [combine_lists] are embedded once more with Python's list objects made
    explicit: a [store] holds the list objects, a variable holds the address
    of one, [copy] and [+] allocate a new object, and [append], item
    assignment and [random.shuffle] change an object in place. *)
Module Ref.

Abbreviation loc := nat.
Abbreviation store := (list (list str)).

(** A computation on the store and the generator; the store is kept when
    an exception is raised. *)
Definition Prog (A : Type) : Type :=
  store -> rng -> result A * store * rng.

Definition ret {A} (a : A) : Prog A := fun h g => (Return a, h, g).

Definition raise {A} (e : exn) : Prog A := fun h g => (Raise e, h, g).

Definition bind {A B} (m : Prog A) (k : A -> Prog B) : Prog B :=
  fun h g =>
    match m h g with
    | (Return a, h', g') => k a h' g'
    | (Raise e, h', g') => (Raise e, h', g')
    end.

Notation "x <<- e ;; k" := (bind e (fun x => k))
  (at level 100, e at next level, k at level 200, right associativity,
   only parsing).

Definition of_result {A} (r : result A) : Prog A :=
  match r with
  | Return a => ret a
  | Raise e => raise e
  end.

(** A draw from the generator; the store is not involved. *)
Definition of_rand {A} (m : Rand A) : Prog A :=
  fun h g =>
    match m g with
    | Return (a, g') => (Return a, h, g')
    | Raise e => (Raise e, h, g)
    end.

(** A new list object, at the next free address. *)
Definition new_list (v : list str) : Prog loc :=
  fun h g => (Return (length h), h ++ [v], g).

(** The current value of the object at [r].  Variables only ever hold the
    addresses of objects; an address without an object reads as the empty
    list. *)
Definition contents (r : loc) : Prog (list str) :=
  fun h g => (Return (default [] (h !! r)), h, g).

(** An update of the object at [r] in place. *)
Definition update (r : loc) (f : list str -> list str) : Prog unit :=
  fun h g => (Return tt, alter f r h, g).

(** [r.copy()] *)
Definition list_copy (r : loc) : Prog loc :=
  v <<- contents r ;; new_list v.

(** [r + l] *)
Definition list_add (r : loc) (l : list str) : Prog loc :=
  v <<- contents r ;; new_list (v ++ l).

(** [r.append(x)] *)
Definition list_append (r : loc) (x : str) : Prog unit :=
  update r (fun v => v ++ [x]).

(** [len(r)] *)
Definition list_len (r : loc) : Prog nat :=
  v <<- contents r ;; ret (length v).

(** [r[i]] *)
Definition list_getitem (r : loc) (i : nat) : Prog str :=
  v <<- contents r ;; of_result (getitem v i).

(** [r[i] = x] *)
Definition list_setitem (r : loc) (i : nat) (x : str) : Prog unit :=
  v <<- contents r ;;
  if decide (i < length v) then update r (fun v => <[i := x]> v)
  else raise IndexError.

(** [sep.join(r)] *)
Definition str_join (sep : str) (r : loc) : Prog str :=
  v <<- contents r ;; ret (join sep v).

(** A [for] loop over a sequence fixed at loop entry. *)
Fixpoint for_each {A S} (xs : list A) (body : S -> A -> Prog S) (s : S)
  : Prog S :=
  match xs with
  | [] => ret s
  | x :: xs' => s' <<- body s x ;; for_each xs' body s'
  end.

(** [for x in r: body], from position [i] on.  The iterator reads the
    list object anew at every step; [body] answers [true] to [break].
    [bound] is the length of the list at loop entry, which is the number
    of steps unless the body lengthens the list it iterates over. *)
Fixpoint for_in (r : loc) (body : str -> Prog bool) (i bound : nat)
  : Prog unit :=
  match bound with
  | 0 => ret tt
  | S bound' =>
      v <<- contents r ;;
      match v !! i with
      | None => ret tt
      | Some x =>
          stop <<- body x ;;
          if stop : bool then ret tt else for_in r body (S i) bound'
      end
  end.

(** [random.shuffle(x)], in place. *)
Definition shuffle (x : loc) : Prog unit :=
  n <<- list_len x ;;
  for_each (reverse (seq 1 (n - 1)))
    (fun _ i =>
       j <<- of_rand (randbelow (i + 1)) ;;
       xj <<- list_getitem x j ;;
       xi <<- list_getitem x i ;;
       _ <<- list_setitem x i xj ;;
       list_setitem x j xi)
    tt.

Definition generate_bad_descriptor_list (input_items descriptors : loc)
  : Prog loc :=
  shuffled_descriptors <<- list_copy descriptors ;;
  _ <<- shuffle shuffled_descriptors ;;
  bad_terms <<- new_list [] ;;
  n <<- list_len shuffled_descriptors ;;
  _ <<- for_each (seq 0 n)
    (fun '(desc_index, item_index) _ =>
       len_descs <<- list_len shuffled_descriptors ;;
       d <<- of_result (py_mod desc_index len_descs) ;;
       desc <<- list_getitem shuffled_descriptors d ;;
       len_items <<- list_len input_items ;;
       m <<- of_result (py_mod item_index len_items) ;;
       item <<- list_getitem input_items m ;;
       let term := fmt2 desc item in
       _ <<- list_append bad_terms term ;;
       ret (desc_index + 1, item_index + 1))
    (0, 0) ;;
  ret bad_terms.

Definition combine_lists (negated_list bad_list : loc) (length_limit : Z)
    (combination_type : str) : Prog loc :=
  combined_terms <<-
    (if bool_decide (combination_type = lit "negated_first") then
       combined_terms <<- list_copy negated_list ;;
       n <<- list_len bad_list ;;
       _ <<- for_in bad_list
         (fun bad_term =>
            test_list <<- list_add combined_terms [bad_term] ;;
            test_string <<- str_join (lit ", ") test_list ;;
            if (len test_string >? length_limit)%Z then ret true
            else _ <<- list_append combined_terms bad_term ;; ret false)
         0 n ;;
       ret (Some combined_terms)
     else ret None) ;;
  match combined_terms with
  | Some r => ret r
  | None => raise UnboundLocalError
  end.

End Ref.

(** * Auxiliary notions for the proofs *)

(** The number of leading characters of a class (used to state what the
    greedy repetitions match). *)
Fixpoint run_length (cls : char -> bool) (s : str) : nat :=
  match s with
  | [] => 0
  | c :: s' => if cls c then S (run_length cls s') else 0
  end.

(** [frames h0 m Q]: run from any store that extends [h0], the computation
    [m] ends in a store that still extends [h0], so every list object of
    [h0] is as it was; a returned value satisfies [Q]. *)
Definition frames {A} (h0 : Ref.store) (m : Ref.Prog A) (Q : A -> Prop)
  : Prop :=
  forall h g,
    h0 `prefix_of` h ->
    h0 `prefix_of` (m h g).1.2 /\
    match (m h g).1.1 with
    | Return a => Q a
    | Raise _ => True
    end.

(** The address is not one of [h0]: the object was allocated later. *)
Definition fresh_for (h0 : Ref.store) (r : Ref.loc) : Prop := length h0 <= r.

(** Both delimiters read as a comma. *)
Definition as_comma (c : char) : char :=
  if (c =? semicolon)%N then comma else c.

(** What an item of [parse_input] looks like: not empty, nothing to trim,
    no delimiter inside. *)
Definition clean_item (item : str) : Prop :=
  item <> [] /\ strip item = item /\ (comma ∉ item) /\ (semicolon ∉ item).

(** * The interactive session: get_multiline_input and main

    The terminal is a [world]: the lines still to be read from standard
    input, the text written to standard output so far, and the random
    generator.  [input] raises [EOFError] when no line is left.  The two
    [while True] loops take a bound on their number of rounds; every round
    reads a line, so a bound above the number of lines left is never
    reached (see [main_ends] and [get_multiline_input_reads]). *)

Inductive session_exn : Type :=
  | EOFError
  | Raised (e : exn).

Record world : Type := World {
  stdin : list str;
  stdout : str;
  generator : rng
}.

Inductive outcome (A : Type) : Type :=
  | Done (a : A)
  | Failed (e : session_exn)
  | OutOfFuel.
Arguments Done {A} a.
Arguments Failed {A} e.
Arguments OutOfFuel {A}.

Definition IO (A : Type) : Type := world -> outcome A * world.

Definition io_ret {A} (a : A) : IO A := fun w => (Done a, w).

Definition io_bind {A B} (m : IO A) (k : A -> IO B) : IO B :=
  fun w =>
    match m w with
    | (Done a, w') => k a w'
    | (Failed e, w') => (Failed e, w')
    | (OutOfFuel, w') => (OutOfFuel, w')
    end.

Notation "x <-- e ;; k" := (io_bind e (fun x => k))
  (at level 100, e at next level, k at level 200, right associativity,
   only parsing).

Definition out_of_fuel {A} : IO A := fun w => (OutOfFuel, w).

(** [input(prompt)]: the prompt is written, then a line is read. *)
Definition input (prompt : str) : IO str :=
  fun w =>
    let w' := World (stdin w) (stdout w ++ prompt) (generator w) in
    match stdin w with
    | [] => (Failed EOFError, w')
    | line :: rest =>
        (Done line, World rest (stdout w ++ prompt) (generator w))
    end.

(** [print(s)]. *)
Definition print (s : str) : IO unit :=
  fun w =>
    (Done tt, World (stdin w) (stdout w ++ s ++ [10%N]) (generator w)).

(** A computation that only draws from the generator. *)
Definition io_rand {A} (m : Rand A) : IO A :=
  fun w =>
    match m (generator w) with
    | Return (a, g') => (Done a, World (stdin w) (stdout w) g')
    | Raise e => (Failed (Raised e), w)
    end.

Fixpoint print_all (lines : list str) : IO unit :=
  match lines with
  | [] => io_ret tt
  | line :: lines' => _ <-- print line ;; print_all lines'
  end.

(** [build_versions] with its four [print] calls carried out. *)
Definition run_build_versions (input_items descriptors : list str) : IO unit :=
  printed <-- io_rand (build_versions input_items descriptors) ;;
  print_all printed.

(** The texts of [main]. *)
Definition main_prompt : str :=
  lit "Enter a list (commas/semicolons), 'multiline' for "
  ++ lit "line-by-line input, or 'exit' to quit: ".

Definition no_items_notice : str :=
  lit "No non-empty items found. Please enter a valid list.".

Definition random_prompt : str :=
  [10%N] ++ lit "Type 'random' to shuffle items & rebuild "
  ++ lit "Good/Bad versions, or press Enter to continue: ".

Section Session.

(** [str.upper] and [str.lower]: the case tables of Unicode are not part of
    the program; the session is defined for any two such functions. *)
Variables upper lower : str -> str.

(** The loop of [get_multiline_input]. *)
Fixpoint get_multiline_loop (fuel : nat) (items : list str)
  : IO (list str) :=
  match fuel with
  | 0 => out_of_fuel
  | S fuel' =>
      raw <-- input [] ;;
      let line := strip raw in
      if bool_decide (upper line = lit "END") then io_ret items
      else if bool_decide (line <> []) then
        get_multiline_loop fuel' (items ++ [line])
      else get_multiline_loop fuel' items
  end.

Definition get_multiline_input (fuel : nat) : IO (list str) :=
  _ <-- print
    (lit "Enter items one per line. Type 'END' on a new line when finished:") ;;
  get_multiline_loop fuel [].

(** The loop of [main]. *)
Fixpoint main_loop (fuel : nat) (descriptors : list str) : IO unit :=
  match fuel with
  | 0 => out_of_fuel
  | S fuel' =>
      raw_input <-- input main_prompt ;;
      if bool_decide (lower raw_input = lit "exit") then io_ret tt
      else
        items <--
          (if bool_decide (lower raw_input = lit "multiline")
           then get_multiline_input fuel'
           else io_ret (parse_input raw_input)) ;;
        if bool_decide (length items = 0) then
          _ <-- print no_items_notice ;;
          main_loop fuel' descriptors
        else
          _ <-- run_build_versions items descriptors ;;
          choice <-- input random_prompt ;;
          _ <-- (if bool_decide (lower choice = lit "random") then
                   shuffled_items <-- io_rand (shuffle (copy items)) ;;
                   _ <-- print ([10%N] ++ lit "-- Randomized Output --") ;;
                   run_build_versions shuffled_items descriptors
                 else io_ret tt) ;;
          _ <-- print [] ;;
          main_loop fuel' descriptors
  end.

Definition main (fuel : nat) : IO unit := main_loop fuel descriptors.

End Session.

(** [str.upper] and [str.lower] on ASCII text, where they only change the
    26 letters; used to run the session on examples. *)
Definition ascii_upper (s : str) : str :=
  (fun c => if ((97 <=? c) && (c <=? 122))%N then (c - 32)%N else c) <$> s.

Definition ascii_lower (s : str) : str :=
  (fun c => if ((65 <=? c) && (c <=? 90))%N then (c + 32)%N else c) <$> s.

(** [runs L m n n' Q]: started with at most [n] lines to read, all of them
    satisfying [L], the computation [m] either returns a value satisfying
    [Q], with at most [n'] lines left, all satisfying [L], or raises
    [EOFError]; it raises nothing else and does not run out of rounds. *)
Definition runs (L : str -> Prop) {A} (m : IO A) (n n' : nat)
    (Q : A -> Prop) : Prop :=
  forall w,
    Forall L (stdin w) -> length (stdin w) <= n ->
    match m w with
    | (Done a, w') =>
        Forall L (stdin w') /\ length (stdin w') <= n' /\ Q a
    | (Failed EOFError, _) => True
    | (Failed (Raised _), _) => False
    | (OutOfFuel, _) => False
    end.

(** [agree n m1 m2]: the two computations do the same from every world with
    at most [n] lines to read. *)
Definition agree {A} (n : nat) (m1 m2 : IO A) : Prop :=
  forall w, length (stdin w) <= n -> m1 w = m2 w.

(** * Properties *)

Section Join.
Variable sep : str.

Lemma join_snoc (l : list str) (x : str) :
  join sep (l ++ [x]) =
    match l with [] => x | _ :: _ => join sep l ++ sep ++ x end.
Proof.
  induction l as [|a l IH]; [done|].
  destruct l as [|b l]; [done|].
  change (join sep ((a :: b :: l) ++ [x]))
    with (a ++ sep ++ join sep ((b :: l) ++ [x])).
  rewrite IH. cbn [join]. by rewrite <- !app_assoc.
Qed.

Lemma join_snoc_length (l : list str) (x : str) :
  l <> [] ->
  length (join sep (l ++ [x])) = length (join sep l) + length sep + length x.
Proof.
  intros Hl. rewrite join_snoc. destruct l; [done|].
  rewrite !length_app. lia.
Qed.
End Join.

Lemma combine_loop_spec (bad_list : list str) :
  forall (combined_terms : list str) (length_limit : Z),
  exists k,
    k <= length bad_list /\
    combine_loop combined_terms bad_list length_limit
      = combined_terms ++ take k bad_list /\
    (forall j, j < k ->
       (len (join (lit ", ") (combined_terms ++ take (S j) bad_list))
          <= length_limit)%Z) /\
    (k < length bad_list ->
       (length_limit
          < len (join (lit ", ") (combined_terms ++ take (S k) bad_list)))%Z).
Proof.
  induction bad_list as [|b rest IH]; intros acc limit.
  - exists 0. cbn. rewrite app_nil_r. repeat split; lia.
  - cbn [combine_loop].
    destruct (Z.gtb_spec (len (join (lit ", ") (acc ++ [b]))) limit) as [Hgt|Hle].
    + exists 0. cbn [take length]. rewrite app_nil_r.
      repeat split; [lia | lia | done].
    + destruct (IH (acc ++ [b]) limit) as (k & Hk & Heq & Hacc & Hrej).
      exists (S k). cbn [take length].
      repeat split.
      * lia.
      * rewrite Heq. by rewrite <- app_assoc.
      * intros [|j] Hj; [done|].
        specialize (Hacc j ltac:(lia)).
        by rewrite <- app_assoc in Hacc.
      * intros Hlt. specialize (Hrej ltac:(lia)).
        by rewrite <- app_assoc in Hrej.
Qed.

Lemma combine_lists_negated_first (negated_list bad_list : list str)
    (length_limit : Z) :
  combine_lists negated_list bad_list length_limit (lit "negated_first")
    = Return (combine_loop negated_list bad_list length_limit).
Proof. reflexivity. Qed.

(** Appending to a non-empty list makes its serialization longer. *)
Lemma join_snoc_longer (sep : str) (l : list str) (x : str) :
  l <> [] -> (len (join sep l) <= len (join sep (l ++ [x])))%Z.
Proof.
  intros Hl. unfold len. rewrite join_snoc_length by done. lia.
Qed.

(** C1. In ["negated_first"] mode the bad-descriptor terms are appended
    greedily in their given order.  The result is the negated terms followed
    by the first [k] bad-descriptor terms, where each of these [k] terms was
    accepted because the comma-and-space-joined serialization including it
    has length at most the budget, and the term at position [k], when there
    is one, is the first whose tentative append exceeds the budget; it and
    every later term are left out, whatever their own size.  Whenever at
    least one bad-descriptor term was accepted, the joined length of the
    result is at most the budget. *)
Theorem combine_lists_greedy_budget (negated_list bad_list : list str)
    (length_limit : Z) :
  (0 < length_limit)%Z ->
  exists k,
    k <= length bad_list /\
    combine_lists negated_list bad_list length_limit (lit "negated_first")
      = Return (negated_list ++ take k bad_list) /\
    (forall j, j < k ->
       (len (join (lit ", ") (negated_list ++ take (S j) bad_list))
          <= length_limit)%Z) /\
    (k < length bad_list ->
       (length_limit
          < len (join (lit ", ") (negated_list ++ take (S k) bad_list)))%Z) /\
    (0 < k ->
       (len (join (lit ", ") (negated_list ++ take k bad_list))
          <= length_limit)%Z).
Proof.
  intros _. rewrite combine_lists_negated_first.
  destruct (combine_loop_spec bad_list negated_list length_limit)
    as (k & Hk & Heq & Hacc & Hrej).
  exists k. rewrite Heq. repeat split; try done.
  destruct k as [|k]; [lia|]. intros _. apply Hacc. lia.
Qed.

Lemma combine_lists_greedy_budget_witness :
  combine_lists [lit "x"] [lit "toolongterm"; lit "y"] 6 (lit "negated_first")
    = Return [lit "x"] /\
  (len (join (lit ", ") [lit "x"; lit "y"]) <= 6)%Z.
Proof.
  split; [|by vm_compute].
  destruct (combine_lists_greedy_budget
              [lit "x"] [lit "toolongterm"; lit "y"] 6 ltac:(lia))
    as (k & _ & Hrun & Hacc & _).
  destruct k as [|k]; [exact Hrun|].
  exfalso. specialize (Hacc 0 ltac:(lia)). vm_compute in Hacc. by apply Hacc.
Defined.

(** C2. In ["negated_first"] mode the result starts with the whole
    negated-terms list, in order, and what follows is an initial segment of
    the bad-descriptor terms.  When the joined negated-terms list alone is
    already over the budget, the result is exactly the negated-terms list:
    the budget check only gates additions. *)
Theorem combine_lists_negated_prefix (negated_list bad_list : list str)
    (length_limit : Z) :
  (0 < length_limit)%Z ->
  exists combined,
    combine_lists negated_list bad_list length_limit (lit "negated_first")
      = Return combined /\
    take (length negated_list) combined = negated_list /\
    drop (length negated_list) combined `prefix_of` bad_list /\
    Forall (fun term => term ∈ bad_list)
      (drop (length negated_list) combined) /\
    ((length_limit < len (join (lit ", ") negated_list))%Z ->
       combined = negated_list).
Proof.
  intros Hpos. rewrite combine_lists_negated_first.
  destruct (combine_loop_spec bad_list negated_list length_limit)
    as (k & Hk & Heq & Hacc & Hrej).
  exists (negated_list ++ take k bad_list). split; [by rewrite Heq|].
  rewrite take_app_length, drop_app_length.
  repeat split.
  - apply prefix_take.
  - apply Forall_forall. intros x Hx.
    by apply (subseteq_take k bad_list).
  - intros Hover. destruct k as [|k]; [by rewrite app_nil_r|].
    exfalso. specialize (Hacc 0 ltac:(lia)).
    destruct bad_list as [|b rest]; [cbn in Hk; lia|].
    change (take 1 (b :: rest)) with [b] in Hacc.
    destruct negated_list as [|n0 negs]; [unfold len in Hover; cbn in Hover; lia|].
    pose proof (join_snoc_longer (lit ", ") (n0 :: negs) b ltac:(done)).
    lia.
Qed.

Lemma combine_lists_negated_prefix_witness :
  combine_lists [lit "not a very long item"; lit "no other long item"]
    [lit "Polka a very long item"; lit "Disco other long item"] 12
    (lit "negated_first")
  = Return [lit "not a very long item"; lit "no other long item"].
Proof.
  destruct (combine_lists_negated_prefix
              [lit "not a very long item"; lit "no other long item"]
              [lit "Polka a very long item"; lit "Disco other long item"] 12
              ltac:(lia))
    as (combined & Hrun & _ & _ & _ & Hover).
  rewrite Hrun. f_equal. apply Hover. by vm_compute.
Defined.

(** C9. With any [combination_type] other than ["negated_first"], the
    reserved values ["bad_first"] and ["randomized"] among them,
    [combine_lists] returns no list: the [return] statement reads the
    variable [combined_terms], which was never bound. *)
Theorem combine_lists_unbound (negated_list bad_list : list str)
    (length_limit : Z) :
  (forall combination_type,
     combination_type <> lit "negated_first" ->
     combine_lists negated_list bad_list length_limit combination_type
       = Raise UnboundLocalError) /\
  combine_lists negated_list bad_list length_limit (lit "bad_first")
    = Raise UnboundLocalError /\
  combine_lists negated_list bad_list length_limit (lit "randomized")
    = Raise UnboundLocalError.
Proof.
  split; [|done].
  intros ct Hct. unfold combine_lists.
  by rewrite bool_decide_eq_false_2.
Qed.

Lemma combine_lists_unbound_witness :
  combine_lists [lit "no cat"] [lit "Polka cat"] 1000 (lit "bad_first")
    = Raise UnboundLocalError.
Proof.
  apply (proj1 (combine_lists_unbound [lit "no cat"] [lit "Polka cat"] 1000)).
  discriminate.
Defined.

(** ** The positive mirror *)

Lemma py_mod_pos (a b : nat) : b <> 0 -> py_mod a b = Return (a mod b).
Proof. by destruct b. Qed.

Lemma getitem_Some {A} (l : list A) (i : nat) (x : A) :
  l !! i = Some x -> getitem l i = Return x.
Proof. unfold getitem. by intros ->. Qed.

Lemma cyclic_lookup {A} (l : list A) (i : nat) :
  l <> [] -> is_Some (l !! (i mod length l)).
Proof.
  intros Hl. apply lookup_lt_is_Some, Nat.mod_upper_bound.
  by destruct l.
Qed.

Lemma positive_loop {A} (input_items : list A) :
  input_items <> [] ->
  forall n start (positive_terms : list A),
  exists out,
    for_each (seq start n)
      (fun positive_terms i =>
         k <- py_mod i (length input_items) ;;
         item <- getitem input_items k ;;
         Return (positive_terms ++ [item]))
      positive_terms
    = Return (positive_terms ++ out) /\
    length out = n /\
    forall i, i < n ->
      out !! i = input_items !! ((start + i) mod length input_items).
Proof.
  intros Hne. induction n as [|n IH]; intros start acc.
  - exists []. rewrite app_nil_r. repeat split; try done. lia.
  - cbn [seq for_each].
    rewrite py_mod_pos by (by destruct input_items).
    destruct (cyclic_lookup input_items start Hne) as [x Hx].
    cbn [bind]. rewrite (getitem_Some _ _ _ Hx). cbn [bind].
    destruct (IH (S start) (acc ++ [x])) as (out & Hrun & Hlen & Hout).
    exists (x :: out). rewrite Hrun, <- app_assoc.
    repeat split; [cbn; lia|].
    intros [|i] Hi; cbn [lookup list_lookup].
    + by rewrite Nat.add_0_r.
    + rewrite Hout by lia. f_equal. f_equal. lia.
Qed.

(** C5. For a non-empty item list, [generate_positive_list] returns a list
    as long as the combined negative list whose element [i] is
    [items[i mod len(items)]]; for items ["a"], ["b"] and a combined list of
    length 5 the output is ["a"], ["b"], ["a"], ["b"], ["a"]. *)
Theorem generate_positive_list_cycles :
  (forall (A B : Type) (input_items : list A)
          (combined_negative_list : list B),
     input_items <> [] ->
     exists positive_terms,
       generate_positive_list input_items combined_negative_list
         = Return positive_terms /\
       length positive_terms = length combined_negative_list /\
       forall i, i < length combined_negative_list ->
         positive_terms !! i
           = input_items !! (i mod length input_items)) /\
  (forall (B : Type) (combined_negative_list : list B),
     length combined_negative_list = 5 ->
     generate_positive_list [lit "a"; lit "b"] combined_negative_list
       = Return [lit "a"; lit "b"; lit "a"; lit "b"; lit "a"]).
Proof.
  split.
  - intros A B items combined Hne. unfold generate_positive_list.
    destruct (positive_loop items Hne (length combined) 0 [])
      as (out & Hrun & Hlen & Hout).
    exists out. by rewrite Hrun.
  - intros B combined Hlen. unfold generate_positive_list.
    by rewrite Hlen.
Qed.

Lemma generate_positive_list_cycles_witness :
  generate_positive_list [lit "a"; lit "b"] [lit "no a"; lit "un- b"; lit "x a"]
    = Return [lit "a"; lit "b"; lit "a"] /\
  generate_positive_list [lit "a"; lit "b"] [1; 2; 3; 4; 5]
    = Return [lit "a"; lit "b"; lit "a"; lit "b"; lit "a"].
Proof.
  split.
  - destruct (proj1 generate_positive_list_cycles str str
                [lit "a"; lit "b"] [lit "no a"; lit "un- b"; lit "x a"])
      as (out & Hrun & _); [done|].
    rewrite Hrun. vm_compute in Hrun. by injection Hrun as <-.
  - apply (proj2 generate_positive_list_cycles nat [1; 2; 3; 4; 5]).
    reflexivity.
Defined.

(** ** The negation generator *)

Lemma choice_negative_modifiers (g : rng) :
  exists modifier,
    choice negative_modifiers g = Return (modifier, drop 1 g) /\
    negative_modifiers !! (default 0 (g !! 0) mod 3) = Some modifier.
Proof.
  destruct (cyclic_lookup negative_modifiers (default 0 (g !! 0)))
    as [m Hm]; [done|].
  change (length negative_modifiers) with 3 in Hm.
  exists m. split; [|done].
  unfold choice. change (length negative_modifiers) with 3.
  unfold rbind, randbelow, lift.
  destruct g as [|x g]; cbn [lookup list_lookup default from_option id drop] in *.
  - change (0 mod 3) with 0 in Hm. by rewrite (getitem_Some _ _ _ Hm).
  - by rewrite (getitem_Some _ _ _ Hm).
Qed.

Lemma negated_loop (input_items : list str) :
  forall (negated_items : list str) (g : rng),
  exists out,
    for_each_rand input_items
      (fun negated_items item =>
         modifier <~ choice negative_modifiers ;;
         rret (negated_items ++ [fmt2 modifier item]))
      negated_items g
    = Return (negated_items ++ out, drop (length input_items) g) /\
    length out = length input_items /\
    forall i item, input_items !! i = Some item ->
      exists modifier,
        negative_modifiers !! (default 0 (g !! i) mod 3) = Some modifier /\
        out !! i = Some (fmt2 modifier item).
Proof.
  induction input_items as [|item0 items IH]; intros acc g.
  - exists []. rewrite app_nil_r. by repeat split.
  - destruct (choice_negative_modifiers g) as (m & Hch & Hm).
    destruct (IH (acc ++ [fmt2 m item0]) (drop 1 g))
      as (out & Hrun & Hlen & Hout).
    exists (fmt2 m item0 :: out).
    cbn [for_each_rand]. unfold rbind at 1. unfold rbind at 1.
    rewrite Hch. unfold rret at 1. rewrite Hrun.
    rewrite <- app_assoc, drop_drop. repeat split; [cbn; lia|].
    intros [|i] item Hi; cbn [lookup list_lookup] in Hi |- *.
    + injection Hi as <-. eauto.
    + destruct (Hout i item Hi) as (m' & Hm' & Hi').
      rewrite lookup_drop in Hm'. eauto.
Qed.

(** C3. [generate_negated_list] returns a list as long as its input in
    which element [i] is ["<modifier> <item>"], the item being input element
    [i] and the modifier the one of ["not"], ["no"], ["un-"] that the draw
    for that index selected; on the empty list it returns the empty list. *)
Theorem generate_negated_list_spec (input_items : list str) (g : rng) :
  exists negated_items,
    generate_negated_list input_items g
      = Return (negated_items, drop (length input_items) g) /\
    length negated_items = length input_items /\
    (forall i item, input_items !! i = Some item ->
       exists modifier,
         modifier ∈ [lit "not"; lit "no"; lit "un-"] /\
         negative_modifiers !! (default 0 (g !! i) mod 3) = Some modifier /\
         negated_items !! i = Some (modifier ++ lit " " ++ item)) /\
    generate_negated_list [] g = Return ([], g).
Proof.
  destruct (negated_loop input_items [] g) as (out & Hrun & Hlen & Hout).
  exists out. repeat split; try done.
  intros i item Hi. destruct (Hout i item Hi) as (m & Hm & Hi').
  exists m. repeat split; try done.
  by apply list_elem_of_lookup_2 in Hm.
Qed.

Lemma generate_negated_list_spec_witness :
  generate_negated_list [lit "cat"; lit "dog"] [4; 2]
    = Return ([lit "no cat"; lit "un- dog"], []).
Proof.
  destruct (generate_negated_list_spec [lit "cat"; lit "dog"] [4; 2])
    as (out & Hrun & _).
  rewrite Hrun. vm_compute in Hrun. by injection Hrun as <-.
Defined.

(** ** Shuffling *)

Lemma swap_Return {A} (x : list A) (i j : nat) :
  i < length x -> j < length x ->
  exists xi xj,
    x !! i = Some xi /\ x !! j = Some xj /\
    swap x i j = Return (<[j := xi]> (<[i := xj]> x)).
Proof.
  intros Hi Hj.
  destruct (lookup_lt_is_Some_2 x i Hi) as [xi Hxi].
  destruct (lookup_lt_is_Some_2 x j Hj) as [xj Hxj].
  exists xi, xj. unfold swap.
  by rewrite (getitem_Some _ _ _ Hxi), (getitem_Some _ _ _ Hxj).
Qed.

(** Exchanging two positions is the transposition of the two indices. *)
Lemma swap_lookup {A} (x : list A) (i j k : nat) (xi xj : A) :
  x !! i = Some xi -> x !! j = Some xj ->
  <[j := xi]> (<[i := xj]> x) !! k
    = x !! (if decide (k = j) then i else if decide (k = i) then j else k).
Proof.
  intros Hxi Hxj.
  pose proof (lookup_lt_Some _ _ _ Hxi). pose proof (lookup_lt_Some _ _ _ Hxj).
  destruct (decide (k = j)) as [->|Hkj].
  - by rewrite list_lookup_insert_eq by (by rewrite length_insert).
  - rewrite list_lookup_insert_ne by done.
    destruct (decide (k = i)) as [->|Hki].
    + by rewrite list_lookup_insert_eq.
    + by rewrite list_lookup_insert_ne.
Qed.

Lemma swap_Permutation {A} (x x' : list A) (i j : nat) :
  swap x i j = Return x' -> Permutation x' x.
Proof.
  unfold swap, getitem. intros Hswap.
  destruct (x !! j) as [xj|] eqn:Hxj; [|done].
  destruct (x !! i) as [xi|] eqn:Hxi; [|done].
  injection Hswap as <-.
  apply Permutation_inj. split; [by rewrite !length_insert|].
  exists (fun k => if decide (k = j) then i
                   else if decide (k = i) then j else k).
  split; [|intros k; by apply swap_lookup].
  intros a b Hab. repeat case_decide; congruence.
Qed.

Lemma swap_length {A} (x x' : list A) (i j : nat) :
  swap x i j = Return x' -> length x' = length x.
Proof. intros Hswap. by eapply Permutation_length, swap_Permutation. Qed.

Lemma swap_fmap {A B} (f : A -> B) (x x' : list A) (i j : nat) :
  swap x i j = Return x' -> swap (f <$> x) i j = Return (f <$> x').
Proof.
  unfold swap, getitem. intros Hswap. rewrite !list_lookup_fmap.
  destruct (x !! j) as [xj|]; [|done].
  destruct (x !! i) as [xi|]; [|done].
  injection Hswap as <-. cbn. by rewrite !list_fmap_insert.
Qed.

Lemma randbelow_lt (n : nat) (g : rng) :
  0 < n -> exists j, randbelow n g = Return (j, drop 1 g) /\ j < n.
Proof.
  intros Hn. destruct g as [|r g]; cbn.
  - by exists 0.
  - exists (r mod n). split; [done|]. apply Nat.mod_upper_bound. lia.
Qed.

(** The loop of [shuffle], over any indices that are in range. *)
Lemma shuffle_loop {A} (indices : list nat) :
  forall (x : list A) (g : rng),
  Forall (fun i => i < length x) indices ->
  exists x',
    for_each_rand indices
      (fun x i => j <~ randbelow (i + 1) ;; lift (swap x i j)) x g
    = Return (x', drop (length indices) g) /\
    Permutation x' x.
Proof.
  induction indices as [|i indices IH]; intros x g Hin.
  - by exists x.
  - apply Forall_cons in Hin as [Hi Hin].
    destruct (randbelow_lt (i + 1) g ltac:(lia)) as (j & Hj & Hlt).
    destruct (swap_Return x i j Hi ltac:(lia)) as (xi & xj & _ & _ & Hswap).
    pose proof (swap_length _ _ _ _ Hswap) as Hlen.
    destruct (IH _ (drop 1 g) ltac:(by rewrite Hlen)) as (x' & Hrun & Hperm).
    exists x'. cbn [for_each_rand]. unfold rbind at 1. unfold rbind at 1.
    rewrite Hj, Hswap. cbn [lift]. rewrite Hrun, drop_drop.
    split; [done|]. rewrite Hperm. by eapply swap_Permutation.
Qed.

Lemma shuffle_loop_fmap {A B} (f : A -> B) (indices : list nat) :
  forall (x x' : list A) (g g' : rng),
  for_each_rand indices
    (fun x i => j <~ randbelow (i + 1) ;; lift (swap x i j)) x g
  = Return (x', g') ->
  for_each_rand indices
    (fun x i => j <~ randbelow (i + 1) ;; lift (swap x i j)) (f <$> x) g
  = Return (f <$> x', g').
Proof.
  induction indices as [|i indices IH]; intros x x' g g'.
  - cbn. unfold rret. by intros [= <- <-].
  - cbn [for_each_rand]. unfold rbind at 1 2 4 5.
    destruct (randbelow (i + 1) g) as [[j g1]|]; [|done].
    unfold lift. destruct (swap x i j) as [x1|] eqn:Hswap; [|done].
    rewrite (swap_fmap f _ _ _ _ Hswap). apply IH.
Qed.

Lemma shuffle_Permutation {A} (x : list A) (g : rng) :
  exists x',
    shuffle x g = Return (x', drop (length x - 1) g) /\ Permutation x' x.
Proof.
  unfold shuffle.
  destruct (shuffle_loop (reverse (seq 1 (length x - 1))) x g)
    as (x' & Hrun & Hperm).
  - apply Forall_forall. intros i Hi.
    apply elem_of_reverse, elem_of_seq in Hi. lia.
  - exists x'. by rewrite length_reverse, length_seq in Hrun.
Qed.

Lemma shuffle_fmap {A B} (f : A -> B) (x x' : list A) (g g' : rng) :
  shuffle x g = Return (x', g') ->
  shuffle (f <$> x) g = Return (f <$> x', g').
Proof.
  unfold shuffle. rewrite length_fmap. apply shuffle_loop_fmap.
Qed.

(** ** The descriptor combiner *)

Lemma bad_loop (input_items shuffled_descriptors : list str) :
  input_items <> [] ->
  forall n from start (bad_terms : list str),
  start + n <= length shuffled_descriptors ->
  exists out,
    for_each (seq from n)
      (fun '(bad_terms, desc_index, item_index) _ =>
         d <- py_mod desc_index (length shuffled_descriptors) ;;
         desc <- getitem shuffled_descriptors d ;;
         m <- py_mod item_index (length input_items) ;;
         item <- getitem input_items m ;;
         Return (bad_terms ++ [fmt2 desc item], desc_index + 1, item_index + 1))
      (bad_terms, start, start)
    = Return (bad_terms ++ out, start + n, start + n) /\
    length out = n /\
    forall i, i < n ->
      exists desc item,
        shuffled_descriptors !! (start + i) = Some desc /\
        input_items !! ((start + i) mod length input_items) = Some item /\
        out !! i = Some (fmt2 desc item).
Proof.
  intros Hne. induction n as [|n IH]; intros from start acc Hn.
  - exists []. rewrite app_nil_r, Nat.add_0_r. repeat split; try done. lia.
  - cbn [seq for_each].
    rewrite py_mod_pos by lia. rewrite Nat.mod_small by lia.
    destruct (lookup_lt_is_Some_2 shuffled_descriptors start ltac:(lia))
      as [desc Hdesc].
    cbn [bind]. rewrite (getitem_Some _ _ _ Hdesc). cbn [bind].
    rewrite py_mod_pos by (by destruct input_items).
    destruct (cyclic_lookup input_items start Hne) as [item Hitem].
    cbn [bind]. rewrite (getitem_Some _ _ _ Hitem). cbn [bind].
    destruct (IH (S from) (start + 1) (acc ++ [fmt2 desc item]) ltac:(lia))
      as (out & Hrun & Hlen & Hout).
    exists (fmt2 desc item :: out).
    split.
    { etrans; [exact Hrun|]. rewrite <- app_assoc.
      do 2 f_equal; [f_equal|]; lia. }
    split; [cbn; lia|].
    intros [|i] Hi; cbn [lookup list_lookup].
    + rewrite Nat.add_0_r. eauto.
    + destruct (Hout i ltac:(lia)) as (d' & it' & Hd' & Hit' & Hi').
      replace (start + S i) with (start + 1 + i) by lia. eauto.
Qed.

Lemma Forall2_fst_snd {A B} (P : A -> B -> Prop) (l : list (A * B)) :
  Forall (fun p => P p.1 p.2) l -> Forall2 P (l.*1) (l.*2).
Proof. induction 1; constructor; done. Qed.

Lemma zip_seq_lookup {A} (l : list A) :
  Forall (fun p => l !! p.1 = Some p.2) (zip (seq 0 (length l)) l).
Proof.
  apply Forall_lookup. intros i [pos x] Hi.
  apply lookup_zip_with_Some in Hi as (a & b & [= -> ->] & Ha & Hb).
  apply lookup_seq in Ha as [-> _]. done.
Qed.

(** Once the catalog is shuffled, the terms pair its entries, in their new
    order, with the items taken cyclically. *)
Lemma bad_descriptor_list_shuffled
    (input_items catalog permuted : list str) (g g' : rng) :
  input_items <> [] ->
  shuffle catalog g = Return (permuted, g') ->
  exists bad_terms,
    generate_bad_descriptor_list input_items catalog g
      = Return (bad_terms, g') /\
    length bad_terms = length permuted /\
    forall i, i < length permuted ->
      exists desc item,
        permuted !! i = Some desc /\
        input_items !! (i mod length input_items) = Some item /\
        bad_terms !! i = Some (fmt2 desc item).
Proof.
  intros Hitems Hsh.
  destruct (bad_loop input_items permuted Hitems (length permuted) 0 0 []
              ltac:(lia))
    as (out & Hrun & Hlen & Hout).
  exists out. split; [|done].
  unfold generate_bad_descriptor_list, copy, rbind.
  rewrite Hsh. unfold lift. by rewrite Hrun.
Qed.

Lemma bad_descriptor_list_run (input_items catalog : list str) (g : rng) :
  input_items <> [] ->
  exists (bad_terms : list str) (g' : rng),
    generate_bad_descriptor_list input_items catalog g
      = Return (bad_terms, g') /\
    length bad_terms = length catalog.
Proof.
  intros Hitems.
  destruct (shuffle_Permutation catalog g) as (permuted & Hsh & Hperm).
  destruct (bad_descriptor_list_shuffled _ _ _ _ _ Hitems Hsh)
    as (bad_terms & Hrun & Hlen & _).
  exists bad_terms, (drop (length catalog - 1) g).
  split; [done|]. rewrite Hlen. by apply Permutation_length.
Qed.

(** C4. For a non-empty item list and a non-empty catalog,
    [generate_bad_descriptor_list] returns exactly [len(catalog)] terms,
    whatever the number of items, and there is a permutation of the catalog
    (a rearrangement of its positions) such that term [i] is
    ["<permuted[i]> <items[i mod len(items)]>"]; with a single item, every
    term pairs that item with a different position of the catalog. *)
Theorem generate_bad_descriptor_list_spec
    (input_items catalog : list str) (g : rng) :
  input_items <> [] -> catalog <> [] ->
  exists (bad_terms permuted : list str) (positions : list nat) (g' : rng),
    generate_bad_descriptor_list input_items catalog g
      = Return (bad_terms, g') /\
    length bad_terms = length catalog /\
    Permutation permuted catalog /\
    Permutation positions (seq 0 (length catalog)) /\
    Forall2 (fun pos desc => catalog !! pos = Some desc)
      positions permuted /\
    (forall i, i < length catalog ->
       exists desc item,
         permuted !! i = Some desc /\
         input_items !! (i mod length input_items) = Some item /\
         bad_terms !! i = Some (desc ++ lit " " ++ item)) /\
    (forall item, input_items = [item] ->
       bad_terms = (fun desc => desc ++ lit " " ++ item) <$> permuted).
Proof.
  intros Hitems _.
  (* shuffle the catalog with every entry tagged by its position *)
  set (tagged := zip (seq 0 (length catalog)) catalog).
  destruct (shuffle_Permutation tagged g) as (tagged' & Hsh & Hperm).
  assert (Hdescs : tagged.*2 = catalog)
    by (apply snd_zip; by rewrite length_seq).
  assert (Hpos : tagged.*1 = seq 0 (length catalog))
    by (apply fst_zip; by rewrite length_seq).
  apply (shuffle_fmap snd) in Hsh. rewrite Hdescs in Hsh.
  assert (Hlen : length (tagged'.*2) = length catalog).
  { rewrite <- Hdescs, !length_fmap. by apply Permutation_length. }
  destruct (bad_descriptor_list_shuffled _ _ _ _ _ Hitems Hsh)
    as (out & Hrun & Hout_len & Hout).
  exists out, (tagged'.*2), (tagged'.*1), (drop (length tagged - 1) g).
  split; [done|].
  split; [lia|].
  split; [by rewrite <- Hdescs, Hperm|].
  split; [by rewrite <- Hpos, Hperm|].
  split.
  { apply Forall2_fst_snd. rewrite Hperm. apply zip_seq_lookup. }
  split.
  { intros i Hi. destruct (Hout i ltac:(lia)) as (d & it & ? & ? & ?).
    eauto. }
  intros item ->. apply list_eq. intros i. rewrite list_lookup_fmap.
  destruct (decide (i < length catalog)) as [Hi|Hi].
  - destruct (Hout i ltac:(lia)) as (d & it & Hd & Hit & Hi').
    change (length [item]) with 1 in Hit.
    rewrite Nat.mod_1_r in Hit. injection Hit as <-.
    by rewrite Hi', Hd.
  - rewrite !lookup_ge_None_2; [done| lia | lia].
Qed.

Lemma generate_bad_descriptor_list_spec_witness :
  generate_bad_descriptor_list [lit "cat"]
    [lit "Polka"; lit "Disco"; lit "Tango"] [0; 1]
  = Return ([lit "Tango cat"; lit "Disco cat"; lit "Polka cat"], []).
Proof.
  destruct (generate_bad_descriptor_list_spec [lit "cat"]
              [lit "Polka"; lit "Disco"; lit "Tango"] [0; 1])
    as (out & p & pos & g' & Hrun & _); [done|done|].
  rewrite Hrun. vm_compute in Hrun. injection Hrun as <- <-. reflexivity.
Defined.

(** ** The item normalizer *)

Section Star.
Variable cls : char -> bool.

(** The last repetition of a pattern takes the whole run. *)
Lemma star_last (s : str) :
  star cls (fun _ => Some 0) s = Some (run_length cls s).
Proof.
  induction s as [|c s IH]; [done|]. cbn.
  destruct (cls c); [by rewrite IH|done].
Qed.

(** When the rest of the pattern cannot start with a character of the
    class, backtracking never helps: the repetition takes the whole run. *)
Lemma star_run (rest : str -> option nat) (s : str) :
  (forall c s', cls c = true -> rest (c :: s') = None) ->
  star cls rest s
    = (fun n => run_length cls s + n) <$> rest (drop (run_length cls s) s).
Proof.
  intros Hrest. induction s as [|c s IH].
  - cbn. by destruct (rest []).
  - cbn [star run_length]. destruct (cls c) eqn:Hc.
    + rewrite IH. cbn [drop].
      destruct (rest (drop (run_length cls s) s)); [done|].
      by rewrite Hrest.
    + cbn [drop]. by destruct (rest (c :: s)).
Qed.
End Star.

Lemma lstrip_drop (s : str) : lstrip s = drop (run_length isspace s) s.
Proof.
  induction s as [|c s IH]; [done|]. cbn. by destruct (isspace c).
Qed.

Lemma lstrip_head (s : str) :
  match lstrip s with c :: _ => isspace c = false | [] => True end.
Proof.
  induction s as [|c s IH]; [done|]. cbn.
  by destruct (isspace c) eqn:Hc.
Qed.

Lemma lstrip_length (s : str) : length (lstrip s) <= length s.
Proof. rewrite lstrip_drop, length_drop. lia. Qed.

Lemma isspace_not_comma (c : char) :
  isspace c = true -> (c =? comma)%N = false.
Proof.
  intros Hc. destruct (N.eqb_spec c comma) as [->|]; [|done].
  by vm_compute in Hc.
Qed.

Lemma sub_scan_skip (p : regex) (repl s : str) (n : nat) :
  sub_scan p repl s n = sub_scan p repl (drop n s) 0.
Proof.
  revert n. induction s as [|c s IH]; intros [|n]; try done.
  cbn [sub_scan drop]. apply IH.
Qed.

(** *** Runs of semicolons *)

Lemma re_match_semicolons (s : str) :
  re_match semicolons s =
    match s with
    | [] => None
    | c :: s' =>
        if (c =? semicolon)%N
        then Some (S (run_length (fun c => (c =? semicolon)%N) s'))
        else None
    end.
Proof.
  destruct s as [|c s]; [done|]. cbn.
  destruct (c =? semicolon)%N; [|done]. by rewrite star_last.
Qed.

Lemma sub_scan_semicolons (s : str) :
  sub_scan semicolons (lit ",") s
    (run_length (fun c => (c =? semicolon)%N) s)
    = NormalizerSpec.semicolon_runs true s /\
  sub_scan semicolons (lit ",") s 0 = NormalizerSpec.semicolon_runs false s.
Proof.
  induction s as [|c s [IHrun IH0]]; [done|].
  cbn [sub_scan run_length NormalizerSpec.semicolon_runs].
  rewrite re_match_semicolons.
  destruct (c =? semicolon)%N.
  - by rewrite IHrun.
  - by rewrite IH0.
Qed.

(** *** Whitespace around commas *)

Lemma re_match_comma_spacing (s : str) :
  re_match comma_spacing s =
    match lstrip s with
    | c :: t =>
        if (c =? comma)%N
        then Some (run_length isspace s + S (run_length isspace t))
        else None
    | [] => None
    end.
Proof.
  unfold comma_spacing. cbn [re_match].
  rewrite star_run.
  - rewrite <- lstrip_drop. destruct (lstrip s) as [|c t]; [done|].
    destruct (c =? comma)%N; [|done]. by rewrite star_last.
  - intros c s' Hc. by rewrite (isspace_not_comma c Hc).
Qed.

(** Neither pattern matches the empty string, which is why [sub_scan] needs
    no case for empty matches. *)
Lemma patterns_consume (s : str) :
  re_match semicolons s <> Some 0 /\ re_match comma_spacing s <> Some 0.
Proof.
  rewrite re_match_semicolons, re_match_comma_spacing. split.
  - destruct s as [|c s]; [done|]. by destruct (c =? semicolon)%N.
  - destruct (lstrip s) as [|c t]; [done|].
    destruct (c =? comma)%N; [|done]. intros [= H]. lia.
Qed.

Lemma collapse_upto_comma (t : str) (s : str) :
  forall after_comma,
  lstrip s = comma :: t ->
  NormalizerSpec.collapse after_comma s
    = comma :: NormalizerSpec.collapse true t.
Proof.
  induction s as [|c s IH]; intros b Hs; [done|].
  cbn [lstrip] in Hs. cbn [NormalizerSpec.collapse].
  destruct (isspace c) eqn:Hc.
  - rewrite (isspace_not_comma c Hc).
    unfold NormalizerSpec.before_comma. rewrite Hs, N.eqb_refl, orb_true_r.
    by apply IH.
  - injection Hs as -> ->. by rewrite N.eqb_refl.
Qed.

Lemma collapse_after_comma (s : str) :
  NormalizerSpec.collapse true s = NormalizerSpec.collapse true (lstrip s).
Proof.
  induction s as [|c s IH]; [done|].
  cbn [lstrip]. destruct (isspace c) eqn:Hc; [|done].
  cbn [NormalizerSpec.collapse].
  by rewrite (isspace_not_comma c Hc), Hc.
Qed.

Lemma collapse_flag (s : str) :
  match s with c :: _ => isspace c = false | [] => True end ->
  NormalizerSpec.collapse true s = NormalizerSpec.collapse false s.
Proof.
  destruct s as [|c s]; [done|]. intros Hc.
  cbn [NormalizerSpec.collapse]. by rewrite Hc.
Qed.

Lemma sub_scan_comma_spacing (s : str) :
  sub_scan comma_spacing (lit ",") s 0 = NormalizerSpec.collapse false s.
Proof.
  remember (length s) as n eqn:Hn. revert s Hn.
  induction n as [n IH] using lt_wf_ind. intros [|c s] Hn; [done|].
  cbn [sub_scan]. rewrite re_match_comma_spacing.
  destruct (lstrip (c :: s)) as [|c0 t] eqn:Hstrip.
  - (* only whitespace up to the end: nothing matches here *)
    rewrite (IH (length s)) by (done || (cbn in Hn; lia)).
    cbn [lstrip] in Hstrip. cbn [NormalizerSpec.collapse].
    destruct (isspace c) eqn:Hc; [|done].
    rewrite (isspace_not_comma c Hc).
    unfold NormalizerSpec.before_comma. by rewrite Hstrip.
  - destruct (c0 =? comma)%N eqn:Hc0.
    + (* a match: the whitespace, the comma, the whitespace after it *)
      apply N.eqb_eq in Hc0 as ->.
      rewrite (collapse_upto_comma t) by done.
      rewrite Nat.add_succ_r, sub_scan_skip.
      replace (drop (run_length isspace (c :: s) + run_length isspace t) s)
        with (lstrip t).
      * rewrite (IH (length (lstrip t))); [| |done].
        -- rewrite collapse_after_comma. cbn [lit app].
           f_equal. symmetry. apply collapse_flag, lstrip_head.
        -- pose proof (lstrip_length t). pose proof (lstrip_length (c :: s)).
           rewrite Hstrip in *. cbn [length] in *. lia.
      * change s with (drop 1 (c :: s)) at 2.
        rewrite drop_drop.
        replace (1 + (run_length isspace (c :: s) + run_length isspace t))
          with (run_length isspace (c :: s) + S (run_length isspace t))
          by lia.
        rewrite <- drop_drop, <- lstrip_drop, Hstrip. cbn [drop].
        apply lstrip_drop.
    + (* the whitespace runs up to something else: nothing matches here *)
      rewrite (IH (length s)) by (done || (cbn in Hn; lia)).
      cbn [lstrip] in Hstrip. cbn [NormalizerSpec.collapse].
      destruct (isspace c) eqn:Hc.
      * rewrite (isspace_not_comma c Hc).
        unfold NormalizerSpec.before_comma. by rewrite Hstrip, Hc0.
      * injection Hstrip as -> ->. by rewrite Hc0.
Qed.

Lemma strip_filter (pieces : list str) :
  strip <$> filter (fun item => strip item <> []) pieces
    = filter (fun piece => piece <> []) (strip <$> pieces).
Proof.
  induction pieces as [|x l IH]; [done|].
  rewrite fmap_cons, !filter_cons.
  destruct (decide (strip x <> [])); [|done].
  by rewrite fmap_cons, IH.
Qed.

(** C6. [parse_input] is the normalizer of the specification: every run of
    one or more semicolons becomes a single comma, whitespace around commas
    is collapsed, the text is split on commas, each piece is trimmed, empty
    pieces are discarded and the rest keep their order.  In particular
    ["a; b ,, c"] gives ["a"], ["b"], ["c"], and the result can be empty. *)
Theorem parse_input_normalizes :
  (forall raw_input : str,
     parse_input raw_input = NormalizerSpec.normalize raw_input) /\
  parse_input (lit "a; b ,, c") = [lit "a"; lit "b"; lit "c"] /\
  parse_input (lit " ;, ") = [] /\
  parse_input (lit "") = [].
Proof.
  split; [|done].
  intros raw. unfold parse_input, NormalizerSpec.normalize, re_sub.
  rewrite (proj2 (sub_scan_semicolons raw)), sub_scan_comma_spacing.
  apply strip_filter.
Qed.

(** ** The whole round *)

Lemma negated_list_run (input_items : list str) (g : rng) :
  exists negated_items,
    generate_negated_list input_items g
      = Return (negated_items, drop (length input_items) g) /\
    length negated_items = length input_items.
Proof.
  destruct (negated_loop input_items [] g) as (out & Hrun & Hlen & _).
  by exists out.
Qed.

Lemma combine_lists_run (negated_list bad_list : list str) (length_limit : Z) :
  exists k,
    k <= length bad_list /\
    combine_lists negated_list bad_list length_limit (lit "negated_first")
      = Return (negated_list ++ take k bad_list).
Proof.
  destruct (combine_loop_spec bad_list negated_list length_limit)
    as (k & Hk & Heq & _).
  exists k. by rewrite combine_lists_negated_first, Heq.
Qed.

Lemma positive_list_run {A B} (input_items : list A)
    (combined_negative_list : list B) :
  input_items <> [] ->
  exists positive_terms,
    generate_positive_list input_items combined_negative_list
      = Return positive_terms /\
    length positive_terms = length combined_negative_list.
Proof.
  intros Hne.
  destruct (positive_loop input_items Hne (length combined_negative_list) 0 [])
    as (out & Hrun & Hlen & _).
  by exists out.
Qed.

(** One round on a non-empty item list, stage by stage. *)
Lemma build_versions_run (input_items descs : list str) (g : rng) :
  input_items <> [] ->
  exists (negated bad combined positive printed : list str) (g1 g2 : rng),
    generate_negated_list input_items g = Return (negated, g1) /\
    generate_bad_descriptor_list input_items descs g1 = Return (bad, g2) /\
    combine_lists negated bad 1000 (lit "negated_first") = Return combined /\
    generate_positive_list input_items combined = Return positive /\
    build_versions input_items descs g = Return (printed, g2) /\
    length negated = length input_items /\
    length bad = length descs /\
    length combined <= length input_items + length descs /\
    length positive = length combined.
Proof.
  intros Hne.
  destruct (negated_list_run input_items g) as (negated & Hneg & Hnlen).
  destruct (bad_descriptor_list_run input_items descs
              (drop (length input_items) g) Hne)
    as (bad & g2 & Hbad & Hblen).
  destruct (combine_lists_run negated bad 1000) as (k & Hk & Hcomb).
  destruct (positive_list_run input_items (negated ++ take k bad) Hne)
    as (positive & Hpos & Hplen).
  eexists negated, bad, _, positive, _, _, g2.
  split; [exact Hneg|]. split; [exact Hbad|]. split; [exact Hcomb|].
  split; [exact Hpos|].
  split.
  { unfold build_versions, rbind. rewrite Hneg, Hbad. unfold lift.
    rewrite Hcomb, Hpos. reflexivity. }
  rewrite length_app, length_take in Hplen |- *. repeat split; lia.
Qed.

Lemma descriptors_length : length descriptors = 57.
Proof. by vm_compute. Qed.

(** C8. On a non-empty item list and the built-in catalog, which is not
    empty, the round of [build_versions] raises nothing: negation, descriptor
    pairing, combination under the budget 1000 in ["negated_first"] mode and
    the positive mirror each return a list. *)
Theorem build_versions_raises_nothing (input_items : list str) (g : rng) :
  input_items <> [] ->
  descriptors <> [] /\
  exists (negated bad combined positive printed : list str) (g1 g2 : rng),
    generate_negated_list input_items g = Return (negated, g1) /\
    generate_bad_descriptor_list input_items descriptors g1
      = Return (bad, g2) /\
    combine_lists negated bad 1000 (lit "negated_first") = Return combined /\
    generate_positive_list input_items combined = Return positive /\
    build_versions input_items descriptors g = Return (printed, g2).
Proof.
  intros Hne. split.
  - intros Hnil. pose proof descriptors_length as Hlen.
    by rewrite Hnil in Hlen.
  - destruct (build_versions_run input_items descriptors g Hne)
      as (neg & bad & comb & pos & out & g1 & g2 & ? & ? & ? & ? & ? & _).
    by exists neg, bad, comb, pos, out, g1, g2.
Qed.

Lemma build_versions_raises_nothing_witness :
  exists printed g',
    build_versions [lit "cat"; lit "dog"] descriptors [7; 5; 3] 
      = Return (printed, g').
Proof.
  destruct (build_versions_raises_nothing [lit "cat"; lit "dog"] [7; 5; 3])
    as (_ & _ & _ & _ & _ & out & _ & g' & _ & _ & _ & _ & Hrun); [done|].
  by exists out, g'.
Defined.

(** The guard of [main] matters: with no items the first cyclic index
    divides by zero. *)
Example build_versions_no_items (g : rng) :
  build_versions [] descriptors g = Raise ZeroDivisionError.
Proof.
  unfold build_versions, rbind. cbn [generate_negated_list for_each_rand rret].
  unfold generate_bad_descriptor_list, rbind, copy.
  destruct (shuffle_Permutation descriptors g) as (p & -> & Hp).
  apply Permutation_length in Hp. rewrite descriptors_length in Hp.
  rewrite Hp. destruct p as [|d p]; [done|]. reflexivity.
Qed.

(** ** The budget in the first scenario *)

Lemma join_length (sep : str) (l : list str) :
  length (join sep l)
    = sum_list_with length l + length sep * (length l - 1).
Proof.
  induction l as [|x l IH]; [cbn; lia|].
  destruct l as [|y l]; [cbn; lia|].
  change (join sep (x :: y :: l)) with (x ++ sep ++ join sep (y :: l)).
  rewrite !length_app, IH. cbn [sum_list_with length]. lia.
Qed.

(** When even the whole list is within the budget, nothing is cut. *)
Lemma combine_loop_all_fit (bad_list : list str) :
  forall (combined_terms : list str) (length_limit : Z),
  (len (join (lit ", ") (combined_terms ++ bad_list)) <= length_limit)%Z ->
  combine_loop combined_terms bad_list length_limit
    = combined_terms ++ bad_list.
Proof.
  induction bad_list as [|b rest IH]; intros acc limit Hfit.
  - by rewrite app_nil_r.
  - cbn [combine_loop].
    destruct (Z.gtb_spec (len (join (lit ", ") (acc ++ [b]))) limit)
      as [Hgt|_].
    + exfalso. unfold len in Hfit, Hgt. rewrite !join_length in Hfit, Hgt.
      rewrite !sum_list_with_app, !length_app in Hfit, Hgt.
      cbn [sum_list_with length lit] in Hfit, Hgt. lia.
    + rewrite IH; rewrite <- app_assoc; done.
Qed.

(** Two lists whose elements differ in length by [c], position by
    position. *)
Lemma sum_lengths_shift (c : nat) (l : list str) :
  forall k : list str,
  length l = length k ->
  (forall i x, l !! i = Some x ->
     exists y, k !! i = Some y /\ length x = length y + c) ->
  sum_list_with length l = sum_list_with length k + c * length k.
Proof.
  induction l as [|x l IH]; intros [|y k] Hlen Hpos; try done.
  { cbn. lia. }
  destruct (Hpos 0 x eq_refl) as (y' & [= <-] & Hxy).
  cbn [sum_list_with length]. rewrite (IH k); [lia|by injection Hlen|].
  intros i x' Hi. apply (Hpos (S i) x' Hi).
Qed.

Lemma modifier_length (modifier : str) (i : nat) :
  negative_modifiers !! i = Some modifier -> length modifier <= 3.
Proof.
  destruct i as [|[|[|i]]]; cbn; intros [= <-] || intros [=]; cbn; lia.
Qed.

(** With the items ["cat"] and ["dog"], all 57 terms fit under 1000
    characters whatever the shuffle and the modifiers: the serialization has
    at most 816. *)
Lemma scenario_cat_dog_all_fit (g : rng) :
  exists (negated bad : list str) (g1 g2 : rng),
    generate_negated_list [lit "cat"; lit "dog"] g = Return (negated, g1) /\
    generate_bad_descriptor_list [lit "cat"; lit "dog"] descriptors g1
      = Return (bad, g2) /\
    length negated = 2 /\
    length bad = 57 /\
    (len (join (lit ", ") (negated ++ bad)) <= 816)%Z /\
    combine_lists negated bad 1000 (lit "negated_first")
      = Return (negated ++ bad).
Proof.
  set (items := [lit "cat"; lit "dog"]).
  destruct (negated_loop items [] g) as (negated & Hneg & Hnlen & Hmods).
  destruct (shuffle_Permutation descriptors (drop (length items) g))
    as (permuted & Hsh & Hperm).
  destruct (bad_descriptor_list_shuffled items _ _ _ _ ltac:(done) Hsh)
    as (bad & Hbad & Hblen & Hterms).
  pose proof (Permutation_length Hperm) as Hplen.
  rewrite descriptors_length in Hplen.
  assert (Hnsum : sum_list_with length negated <= 14).
  { destruct (Hmods 0 (lit "cat") eq_refl) as (m0 & Hm0 & H0).
    destruct (Hmods 1 (lit "dog") eq_refl) as (m1 & Hm1 & H1).
    apply modifier_length in Hm0, Hm1.
    destruct negated as [|n0 [|n1 [|]]]; try done.
    cbn [lookup list_lookup] in H0, H1.
    injection H0 as ->. injection H1 as ->.
    unfold fmt2. cbn [sum_list_with]. rewrite !length_app. cbn [length].
    change (length (lit " ")) with 1. lia. }
  assert (Hbsum : sum_list_with length bad
                    = sum_list_with length descriptors + 4 * 57).
  { rewrite <- Hperm, <- Hplen. apply sum_lengths_shift; [done|].
    intros i term Hi. pose proof (lookup_lt_Some _ _ _ Hi) as Hlt.
    destruct (Hterms i ltac:(lia)) as (desc & item & Hdesc & Hitem & Hterm).
    exists desc. split; [done|].
    rewrite Hi in Hterm. injection Hterm as ->.
    unfold fmt2. rewrite !length_app. change (length (lit " ")) with 1.
    assert (length item = 3) as ->; [|lia].
    change (length items) with 2 in Hitem.
    pose proof (Nat.mod_upper_bound i 2 ltac:(lia)) as Hmod.
    destruct (i mod 2) as [|[|]]; [| |lia]; by injection Hitem as <-. }
  assert (Hfit : (len (join (lit ", ") (negated ++ bad)) <= 816)%Z).
  { unfold len. rewrite join_length, sum_list_with_app, length_app, Hbsum.
    replace (sum_list_with length descriptors) with 458 by (by vm_compute).
    rewrite Hnlen, Hblen, Hplen. cbn [length lit items]. lia. }
  exists negated, bad, (drop (length items) g),
    (drop (length descriptors - 1) (drop (length items) g)).
  repeat split; try done; [lia|].
  rewrite combine_lists_negated_first, combine_loop_all_fit; [done|lia].
Qed.

(** C7, as the code has it.  For the input ["cat, dog"], the built-in
    catalog and the budget 1000: the catalog has 57 entries, the negated
    list has length 2, the bad-descriptor list has length 57, the combined
    bad list has length at most 62 (it has all 59 terms, since they fit in
    the budget), and the positive list is as long as the combined bad
    list. *)
Theorem scenario_cat_dog (g : rng) :
  length descriptors = 57 /\
  parse_input (lit "cat, dog") = [lit "cat"; lit "dog"] /\
  exists (negated bad combined positive : list str) (g1 g2 : rng),
    generate_negated_list (parse_input (lit "cat, dog")) g
      = Return (negated, g1) /\
    generate_bad_descriptor_list (parse_input (lit "cat, dog")) descriptors g1
      = Return (bad, g2) /\
    combine_lists negated bad 1000 (lit "negated_first") = Return combined /\
    generate_positive_list (parse_input (lit "cat, dog")) combined
      = Return positive /\
    length negated = 2 /\
    length bad = 57 /\
    length combined <= 62 /\
    length combined = 59 /\
    length positive = length combined.
Proof.
  split; [exact descriptors_length|]. split; [done|].
  change (parse_input (lit "cat, dog")) with [lit "cat"; lit "dog"].
  destruct (scenario_cat_dog_all_fit g)
    as (neg & bad & g1 & g2 & Hneg & Hbad & Hn & Hb & _ & Hcomb).
  destruct (positive_list_run [lit "cat"; lit "dog"] (neg ++ bad))
    as (pos & Hpos & Hp); [done|].
  exists neg, bad, (neg ++ bad), pos, g1, g2.
  rewrite length_app in Hp |- *. repeat split; try done; lia.
Qed.

(** The catalog does not have 60 entries, so scenario 1 of the
    specification does not hold with its numbers. *)
Lemma scenario_cat_dog_not_60 :
  ~ (length descriptors = 60 /\
     forall g : rng,
     exists (negated bad combined positive : list str) (g1 g2 : rng),
       generate_negated_list (parse_input (lit "cat, dog")) g
         = Return (negated, g1) /\
       generate_bad_descriptor_list (parse_input (lit "cat, dog"))
         descriptors g1 = Return (bad, g2) /\
       combine_lists negated bad 1000 (lit "negated_first")
         = Return combined /\
       generate_positive_list (parse_input (lit "cat, dog")) combined
         = Return positive /\
       length negated = 2 /\
       length bad = 60 /\
       length combined <= 62 /\
       length positive = length combined).
Proof. intros [Hlen _]. by rewrite descriptors_length in Hlen. Qed.

(** ** What the calls leave untouched *)

Section Frames.
Variable h0 : Ref.store.

Lemma frames_ret {A} (a : A) (Q : A -> Prop) : Q a -> frames h0 (Ref.ret a) Q.
Proof. by intros Ha h g Hh. Qed.

Lemma frames_raise {A} (e : exn) (Q : A -> Prop) :
  frames h0 (Ref.raise e) Q.
Proof. by intros h g Hh. Qed.

Lemma frames_bind {A B} (m : Ref.Prog A) (k : A -> Ref.Prog B)
    (Q : A -> Prop) (R : B -> Prop) :
  frames h0 m Q -> (forall a, Q a -> frames h0 (k a) R) ->
  frames h0 (Ref.bind m k) R.
Proof.
  intros Hm Hk h g Hh. specialize (Hm h g Hh). unfold Ref.bind.
  destruct (m h g) as [[[a|e] h1] g1]; cbn in Hm |- *.
  - destruct Hm as [Hh1 Ha]. by apply Hk.
  - by destruct Hm.
Qed.

Lemma frames_of_result {A} (r : result A) :
  frames h0 (Ref.of_result r) (fun _ => True).
Proof. destruct r; [by apply frames_ret | apply frames_raise]. Qed.

Lemma frames_of_rand {A} (m : Rand A) :
  frames h0 (Ref.of_rand m) (fun _ => True).
Proof.
  intros h g Hh. unfold Ref.of_rand. by destruct (m g) as [[a g']|e].
Qed.

Lemma frames_contents (r : Ref.loc) :
  frames h0 (Ref.contents r) (fun _ => True).
Proof. by intros h g Hh. Qed.

Lemma frames_new_list (v : list str) :
  frames h0 (Ref.new_list v) (fresh_for h0).
Proof.
  intros h g Hh. cbn. split; [by apply prefix_app_r|].
  by apply prefix_length.
Qed.

Lemma frames_update (r : Ref.loc) (f : list str -> list str) :
  fresh_for h0 r -> frames h0 (Ref.update r f) (fun _ => True).
Proof.
  intros Hr h g [k ->]. cbn. split; [|done].
  rewrite alter_app_r_alt by done. by apply prefix_app_r.
Qed.

Lemma frames_list_copy (r : Ref.loc) :
  frames h0 (Ref.list_copy r) (fresh_for h0).
Proof.
  eapply frames_bind; [apply frames_contents|].
  intros v _. apply frames_new_list.
Qed.

Lemma frames_list_add (r : Ref.loc) (l : list str) :
  frames h0 (Ref.list_add r l) (fresh_for h0).
Proof.
  eapply frames_bind; [apply frames_contents|].
  intros v _. apply frames_new_list.
Qed.

Lemma frames_list_append (r : Ref.loc) (x : str) :
  fresh_for h0 r -> frames h0 (Ref.list_append r x) (fun _ => True).
Proof. apply frames_update. Qed.

Lemma frames_list_len (r : Ref.loc) :
  frames h0 (Ref.list_len r) (fun _ => True).
Proof.
  eapply frames_bind; [apply frames_contents|].
  intros v _. by apply frames_ret.
Qed.

Lemma frames_list_getitem (r : Ref.loc) (i : nat) :
  frames h0 (Ref.list_getitem r i) (fun _ => True).
Proof.
  eapply frames_bind; [apply frames_contents|].
  intros v _. apply frames_of_result.
Qed.

Lemma frames_list_setitem (r : Ref.loc) (i : nat) (x : str) :
  fresh_for h0 r -> frames h0 (Ref.list_setitem r i x) (fun _ => True).
Proof.
  intros Hr. eapply frames_bind; [apply frames_contents|].
  intros v _. case_decide; [by apply frames_update | apply frames_raise].
Qed.

Lemma frames_str_join (sep : str) (r : Ref.loc) :
  frames h0 (Ref.str_join sep r) (fun _ => True).
Proof.
  eapply frames_bind; [apply frames_contents|].
  intros v _. by apply frames_ret.
Qed.

Lemma frames_for_each {A S} (xs : list A) (body : S -> A -> Ref.Prog S) :
  (forall s x, frames h0 (body s x) (fun _ => True)) ->
  forall s, frames h0 (Ref.for_each xs body s) (fun _ => True).
Proof.
  intros Hbody. induction xs as [|x xs IH]; intros s.
  - by apply frames_ret.
  - cbn [Ref.for_each]. eapply frames_bind; [apply Hbody|].
    intros s' _. apply IH.
Qed.

Lemma frames_for_in (r : Ref.loc) (body : str -> Ref.Prog bool)
    (bound : nat) :
  (forall x, frames h0 (body x) (fun _ => True)) ->
  forall i, frames h0 (Ref.for_in r body i bound) (fun _ => True).
Proof.
  intros Hbody. induction bound as [|bound IH]; intros i.
  - by apply frames_ret.
  - cbn [Ref.for_in]. eapply frames_bind; [apply frames_contents|].
    intros v _. destruct (v !! i) as [x|]; [|by apply frames_ret].
    eapply frames_bind; [apply Hbody|].
    intros [] _; [by apply frames_ret | apply IH].
Qed.

(** Shuffling a list object made after [h0] changes nothing of [h0]. *)
Lemma frames_shuffle (x : Ref.loc) :
  fresh_for h0 x -> frames h0 (Ref.shuffle x) (fun _ => True).
Proof.
  intros Hx. eapply frames_bind; [apply frames_list_len|].
  intros n _. apply frames_for_each. intros [] i.
  eapply frames_bind; [apply frames_of_rand|]. intros j _.
  eapply frames_bind; [apply frames_list_getitem|]. intros xj _.
  eapply frames_bind; [apply frames_list_getitem|]. intros xi _.
  eapply frames_bind; [by apply frames_list_setitem|]. intros _ _.
  by apply frames_list_setitem.
Qed.

Lemma frames_generate_bad_descriptor_list (input_items descriptors : Ref.loc) :
  frames h0 (Ref.generate_bad_descriptor_list input_items descriptors)
    (fresh_for h0).
Proof.
  eapply frames_bind; [apply frames_list_copy|]. intros shuffled Hsh.
  eapply frames_bind; [by apply frames_shuffle|]. intros _ _.
  eapply frames_bind; [apply frames_new_list|]. intros bad_terms Hbad.
  eapply frames_bind; [apply frames_list_len|]. intros n _.
  eapply frames_bind; [|intros _ _; by apply frames_ret].
  apply frames_for_each. intros [desc_index item_index] _.
  eapply frames_bind; [apply frames_list_len|]. intros len_descs _.
  eapply frames_bind; [apply frames_of_result|]. intros d _.
  eapply frames_bind; [apply frames_list_getitem|]. intros desc _.
  eapply frames_bind; [apply frames_list_len|]. intros len_items _.
  eapply frames_bind; [apply frames_of_result|]. intros m _.
  eapply frames_bind; [apply frames_list_getitem|]. intros item _.
  eapply frames_bind; [by apply frames_list_append|]. intros _ _.
  by apply frames_ret.
Qed.

Lemma frames_combine_lists (negated_list bad_list : Ref.loc)
    (length_limit : Z) (combination_type : str) :
  frames h0
    (Ref.combine_lists negated_list bad_list length_limit combination_type)
    (fresh_for h0).
Proof.
  unfold Ref.combine_lists.
  eapply (frames_bind _ _
            (fun r => match r with Some r => fresh_for h0 r | None => True end)).
  - case_bool_decide; [|by apply frames_ret].
    eapply frames_bind; [apply frames_list_copy|]. intros combined Hc.
    eapply frames_bind; [apply frames_list_len|]. intros n _.
    eapply frames_bind; [|intros _ _; by apply frames_ret].
    apply frames_for_in. intros bad_term.
    eapply frames_bind; [apply frames_list_add|]. intros test_list _.
    eapply frames_bind; [apply frames_str_join|]. intros test_string _.
    destruct (len test_string >? length_limit)%Z; [by apply frames_ret|].
    eapply frames_bind; [by apply frames_list_append|]. intros _ _.
    by apply frames_ret.
  - intros [r|] Hr; [by apply frames_ret | apply frames_raise].
Qed.
End Frames.

(** C10. Both calls leave the list objects they are given as they were.
    [generate_bad_descriptor_list] shuffles a copy, so the catalog passed in
    (and the item list) hold the same values after the call as before;
    [combine_lists] appends to a copy, so the negated-terms list and the
    bad-descriptor list hold the same values after the call as before.  In
    both cases every list object that existed before the call is unchanged,
    whether the call returns or raises. *)
Theorem calls_leave_inputs_unchanged :
  (forall (h h' : Ref.store) (g g' : rng) (input_items descriptors : Ref.loc)
          (items catalog : list str) (outcome : result Ref.loc),
     h !! input_items = Some items ->
     h !! descriptors = Some catalog ->
     Ref.generate_bad_descriptor_list input_items descriptors h g
       = (outcome, h', g') ->
     h' !! descriptors = Some catalog /\
     h' !! input_items = Some items /\
     h `prefix_of` h') /\
  (forall (h h' : Ref.store) (g g' : rng) (negated_list bad_list : Ref.loc)
          (length_limit : Z) (combination_type : str)
          (negated bad : list str) (outcome : result Ref.loc),
     h !! negated_list = Some negated ->
     h !! bad_list = Some bad ->
     Ref.combine_lists negated_list bad_list length_limit combination_type h g
       = (outcome, h', g') ->
     h' !! negated_list = Some negated /\
     h' !! bad_list = Some bad /\
     h `prefix_of` h').
Proof.
  split.
  - intros h h' g g' items_ref descs_ref items catalog outcome Hi Hd Hrun.
    destruct (frames_generate_bad_descriptor_list h items_ref descs_ref h g)
      as [Hframe _]; [done|].
    rewrite Hrun in Hframe. cbn in Hframe.
    eauto using prefix_lookup_Some.
  - intros h h' g g' neg_ref bad_ref limit ctype negated bad outcome Hn Hb Hrun.
    destruct (frames_combine_lists h neg_ref bad_ref limit ctype h g)
      as [Hframe _]; [done|].
    rewrite Hrun in Hframe. cbn in Hframe.
    eauto using prefix_lookup_Some.
Qed.

Lemma calls_leave_inputs_unchanged_witness :
  (Ref.generate_bad_descriptor_list 0 1
     [[lit "cat"]; [lit "Polka"; lit "Disco"; lit "Tango"]] [0; 1]).1.2 !! 1
    = Some [lit "Polka"; lit "Disco"; lit "Tango"] /\
  (Ref.combine_lists 0 1 30 (lit "negated_first")
     [[lit "no cat"]; [lit "Polka cat"; lit "Disco cat"; lit "Tango cat"]]
     []).1.2 !! 1
    = Some [lit "Polka cat"; lit "Disco cat"; lit "Tango cat"].
Proof.
  split.
  - eapply (proj1 calls_leave_inputs_unchanged
              [[lit "cat"]; [lit "Polka"; lit "Disco"; lit "Tango"]]
              _ [0; 1] _ 0 1 [lit "cat"]);
      [reflexivity | reflexivity |].
    by rewrite <- !surjective_pairing.
  - eapply (proj2 calls_leave_inputs_unchanged
              [[lit "no cat"];
               [lit "Polka cat"; lit "Disco cat"; lit "Tango cat"]]
              _ [] _ 0 1 30%Z (lit "negated_first") [lit "no cat"]);
      [reflexivity | reflexivity |].
    by rewrite <- !surjective_pairing.
Defined.

(** ** The two embeddings agree

    Run on a store that holds the argument lists, the functions on list
    objects return the address of a new object that holds the list computed
    by the functions on values, and draw the same numbers. *)

Section RefSteps.
Context {A B : Type}.
Implicit Types (h : Ref.store) (g : rng) (r : Ref.loc) (v : list str).

Lemma bind_Return (m : Ref.Prog A) (k : A -> Ref.Prog B) h g a h' g' :
  m h g = (Return a, h', g') -> Ref.bind m k h g = k a h' g'.
Proof. unfold Ref.bind. by intros ->. Qed.

Lemma bind_Raise (m : Ref.Prog A) (k : A -> Ref.Prog B) h g e h' g' :
  m h g = (Raise e, h', g') -> Ref.bind m k h g = (Raise e, h', g').
Proof. unfold Ref.bind. by intros ->. Qed.
End RefSteps.

Section RefOps.
Implicit Types (h : Ref.store) (g : rng) (r : Ref.loc) (v : list str).

Lemma contents_eq h g r v :
  h !! r = Some v -> Ref.contents r h g = (Return v, h, g).
Proof. unfold Ref.contents. by intros ->. Qed.

Lemma list_len_eq h g r v :
  h !! r = Some v -> Ref.list_len r h g = (Return (length v), h, g).
Proof.
  intros Hr. unfold Ref.list_len.
  by rewrite (bind_Return _ _ _ _ _ _ _ (contents_eq h g r v Hr)).
Qed.

Lemma list_getitem_eq h g r v i :
  h !! r = Some v ->
  Ref.list_getitem r i h g = Ref.of_result (getitem v i) h g.
Proof.
  intros Hr. unfold Ref.list_getitem.
  by rewrite (bind_Return _ _ _ _ _ _ _ (contents_eq h g r v Hr)).
Qed.

Lemma list_setitem_eq h g r v i x :
  h !! r = Some v -> i < length v ->
  Ref.list_setitem r i x h g
    = (Return tt, alter (fun v => <[i := x]> v) r h, g).
Proof.
  intros Hr Hi. unfold Ref.list_setitem.
  rewrite (bind_Return _ _ _ _ _ _ _ (contents_eq h g r v Hr)).
  by rewrite decide_True.
Qed.

Lemma list_copy_eq h g r v :
  h !! r = Some v -> Ref.list_copy r h g = (Return (length h), h ++ [v], g).
Proof.
  intros Hr. unfold Ref.list_copy.
  by rewrite (bind_Return _ _ _ _ _ _ _ (contents_eq h g r v Hr)).
Qed.

Lemma list_add_eq h g r v l :
  h !! r = Some v ->
  Ref.list_add r l h g = (Return (length h), h ++ [v ++ l], g).
Proof.
  intros Hr. unfold Ref.list_add.
  by rewrite (bind_Return _ _ _ _ _ _ _ (contents_eq h g r v Hr)).
Qed.

Lemma str_join_eq h g r v sep :
  h !! r = Some v -> Ref.str_join sep r h g = (Return (join sep v), h, g).
Proof.
  intros Hr. unfold Ref.str_join.
  by rewrite (bind_Return _ _ _ _ _ _ _ (contents_eq h g r v Hr)).
Qed.

(** Reading and updating the objects allocated right after [h]. *)
Lemma lookup_first_new h v (rest : Ref.store) :
  (h ++ v :: rest) !! length h = Some v.
Proof. apply list_lookup_middle. done. Qed.

Lemma lookup_old h (rest : Ref.store) r v :
  h !! r = Some v -> (h ++ rest) !! r = Some v.
Proof. intros Hr. apply lookup_app_l_Some. done. Qed.

Lemma alter_first_new (f : list str -> list str) h v (rest : Ref.store) :
  alter f (length h) (h ++ v :: rest) = h ++ f v :: rest.
Proof. rewrite alter_app_r_alt by done. by rewrite Nat.sub_diag. Qed.

Lemma alter_second_new (f : list str -> list str) h v w (rest : Ref.store) :
  alter f (S (length h)) (h ++ v :: w :: rest) = h ++ v :: f w :: rest.
Proof.
  rewrite alter_app_r_alt by lia.
  by replace (S (length h) - length h) with 1 by lia.
Qed.
End RefOps.

Lemma ref_shuffle_loop (h : Ref.store) (indices : list nat) :
  forall (x x' : list str) (g g' : rng),
  Forall (fun i => i < length x) indices ->
  for_each_rand indices
    (fun x i => j <~ randbelow (i + 1) ;; lift (swap x i j)) x g
  = Return (x', g') ->
  Ref.for_each indices
    (fun _ i =>
       Ref.bind (Ref.of_rand (randbelow (i + 1))) (fun j =>
       Ref.bind (Ref.list_getitem (length h) j) (fun xj =>
       Ref.bind (Ref.list_getitem (length h) i) (fun xi =>
       Ref.bind (Ref.list_setitem (length h) i xj) (fun _ =>
       Ref.list_setitem (length h) j xi)))))
    tt (h ++ [x]) g
  = (Return tt, h ++ [x'], g').
Proof.
  induction indices as [|i indices IH]; intros x x' g g' Hin Hrun.
  - cbn in Hrun. unfold rret in Hrun. by injection Hrun as <- <-.
  - apply Forall_cons in Hin as [Hi Hin].
    cbn [for_each_rand] in Hrun. unfold rbind at 1 2 in Hrun.
    destruct (randbelow_lt (i + 1) g ltac:(lia)) as (j & Hj & Hlt).
    rewrite Hj in Hrun.
    destruct (swap_Return x i j Hi ltac:(lia)) as (xi & xj & Hxi & Hxj & Hswap).
    rewrite Hswap in Hrun. cbn [lift] in Hrun.
    cbn [Ref.for_each].
    erewrite bind_Return; cycle 1.
    { erewrite bind_Return; [|unfold Ref.of_rand; by rewrite Hj].
      erewrite bind_Return;
        [|by rewrite (list_getitem_eq _ _ _ x) by apply lookup_first_new;
             rewrite (getitem_Some _ _ _ Hxj)].
      erewrite bind_Return;
        [|by rewrite (list_getitem_eq _ _ _ x) by apply lookup_first_new;
             rewrite (getitem_Some _ _ _ Hxi)].
      erewrite bind_Return;
        [|by apply (list_setitem_eq _ _ _ x); [apply lookup_first_new|]].
      rewrite alter_first_new.
      rewrite (list_setitem_eq _ _ _ (<[i:=xj]> x));
        [|apply lookup_first_new | rewrite length_insert; lia].
      by rewrite alter_first_new. }
    apply IH; [|done]. by rewrite !length_insert.
Qed.

Lemma ref_shuffle (h : Ref.store) (x x' : list str) (g g' : rng) :
  shuffle x g = Return (x', g') ->
  Ref.shuffle (length h) (h ++ [x]) g = (Return tt, h ++ [x'], g').
Proof.
  intros Hrun. unfold Ref.shuffle.
  erewrite bind_Return; [|by apply (list_len_eq _ _ _ x), lookup_first_new].
  apply ref_shuffle_loop; [|done].
  apply Forall_forall. intros i Hi.
  apply elem_of_reverse, elem_of_seq in Hi. lia.
Qed.

(** The loop of [generate_bad_descriptor_list], the list under construction
    being the second new object. *)
Lemma ref_bad_loop (h : Ref.store) (input_items : Ref.loc)
    (items permuted : list str) (g : rng) :
  h !! input_items = Some items ->
  forall n from (bad_terms : list str) (desc_index item_index : nat),
  exists (bad_terms' : list str),
    Ref.for_each (seq from n)
      (fun '(desc_index, item_index) _ =>
         Ref.bind (Ref.list_len (length h)) (fun len_descs =>
         Ref.bind (Ref.of_result (py_mod desc_index len_descs)) (fun d =>
         Ref.bind (Ref.list_getitem (length h) d) (fun desc =>
         Ref.bind (Ref.list_len input_items) (fun len_items =>
         Ref.bind (Ref.of_result (py_mod item_index len_items)) (fun m =>
         Ref.bind (Ref.list_getitem input_items m) (fun item =>
         Ref.bind (Ref.list_append (S (length h)) (fmt2 desc item)) (fun _ =>
         Ref.ret (desc_index + 1, item_index + 1)))))))))
      (desc_index, item_index) (h ++ [permuted; bad_terms]) g
    = (match
         for_each (seq from n)
           (fun '(bad_terms, desc_index, item_index) _ =>
              d <- py_mod desc_index (length permuted) ;;
              desc <- getitem permuted d ;;
              m <- py_mod item_index (length items) ;;
              item <- getitem items m ;;
              Return (bad_terms ++ [fmt2 desc item],
                      desc_index + 1, item_index + 1))
           (bad_terms, desc_index, item_index)
       with
       | Return (_, di, ii) => Return (di, ii)
       | Raise e => Raise e
       end,
       h ++ [permuted; bad_terms'], g) /\
    match
      for_each (seq from n)
        (fun '(bad_terms, desc_index, item_index) _ =>
           d <- py_mod desc_index (length permuted) ;;
           desc <- getitem permuted d ;;
           m <- py_mod item_index (length items) ;;
           item <- getitem items m ;;
           Return (bad_terms ++ [fmt2 desc item],
                   desc_index + 1, item_index + 1))
        (bad_terms, desc_index, item_index)
    with
    | Return (out, _, _) => bad_terms' = out
    | Raise _ => True
    end.
Proof.
  intros Hitems. induction n as [|n IH]; intros from acc di ii.
  - by exists acc.
  - cbn [seq for_each Ref.for_each].
    assert (Hperm : forall acc : list str,
               (h ++ [permuted; acc]) !! length h = Some permuted)
      by (intros; apply lookup_first_new).
    assert (Hold : forall acc : list str,
               (h ++ [permuted; acc]) !! input_items = Some items)
      by (intros; by apply lookup_old).
    destruct (py_mod di (length permuted)) as [d|e] eqn:Hd; cbn [bind].
    2:{ exists acc. split; [|done].
        erewrite bind_Raise; [done|].
        erewrite bind_Return; [|by apply (list_len_eq _ _ _ permuted)].
        erewrite bind_Raise; [done|]. by rewrite Hd. }
    destruct (getitem permuted d) as [desc|e] eqn:Hdesc; cbn [bind].
    2:{ exists acc. split; [|done].
        erewrite bind_Raise; [done|].
        erewrite bind_Return; [|by apply (list_len_eq _ _ _ permuted)].
        erewrite bind_Return; [|by rewrite Hd].
        erewrite bind_Raise; [done|].
        by rewrite (list_getitem_eq _ _ _ permuted), Hdesc. }
    destruct (py_mod ii (length items)) as [m|e] eqn:Hm; cbn [bind].
    2:{ exists acc. split; [|done].
        erewrite bind_Raise; [done|].
        erewrite bind_Return; [|by apply (list_len_eq _ _ _ permuted)].
        erewrite bind_Return; [|by rewrite Hd].
        erewrite bind_Return;
          [|by rewrite (list_getitem_eq _ _ _ permuted), Hdesc].
        erewrite bind_Return; [|by apply (list_len_eq _ _ _ items)].
        erewrite bind_Raise; [done|]. by rewrite Hm. }
    destruct (getitem items m) as [item|e] eqn:Hitem; cbn [bind].
    2:{ exists acc. split; [|done].
        erewrite bind_Raise; [done|].
        erewrite bind_Return; [|by apply (list_len_eq _ _ _ permuted)].
        erewrite bind_Return; [|by rewrite Hd].
        erewrite bind_Return;
          [|by rewrite (list_getitem_eq _ _ _ permuted), Hdesc].
        erewrite bind_Return; [|by apply (list_len_eq _ _ _ items)].
        erewrite bind_Return; [|by rewrite Hm].
        erewrite bind_Raise; [done|].
        by rewrite (list_getitem_eq _ _ _ items), Hitem. }
    destruct (IH (S from) (acc ++ [fmt2 desc item]) (di + 1) (ii + 1))
      as (acc' & Hrun & Hacc').
    exists acc'. split; [|done].
    erewrite bind_Return; [exact Hrun|].
    erewrite bind_Return; [|by apply (list_len_eq _ _ _ permuted)].
    erewrite bind_Return; [|by rewrite Hd].
    erewrite bind_Return;
      [|by rewrite (list_getitem_eq _ _ _ permuted), Hdesc].
    erewrite bind_Return; [|by apply (list_len_eq _ _ _ items)].
    erewrite bind_Return; [|by rewrite Hm].
    erewrite bind_Return;
      [|by rewrite (list_getitem_eq _ _ _ items), Hitem].
    unfold Ref.list_append, Ref.update, Ref.bind, Ref.ret.
    by rewrite alter_second_new.
Qed.

(** On a store that holds the two argument lists,
    [Ref.generate_bad_descriptor_list] allocates the shuffled copy and the
    result, returns the address of the result, which holds the list that the
    function on values returns, and raises when that one raises. *)
Lemma ref_generate_bad_descriptor_list (h : Ref.store)
    (input_items descriptors : Ref.loc) (items catalog : list str) (g : rng) :
  h !! input_items = Some items ->
  h !! descriptors = Some catalog ->
  match generate_bad_descriptor_list items catalog g with
  | Return (bad_terms, g') =>
      exists permuted,
        Ref.generate_bad_descriptor_list input_items descriptors h g
          = (Return (S (length h)), h ++ [permuted; bad_terms], g')
  | Raise e =>
      exists permuted bad_terms g',
        Ref.generate_bad_descriptor_list input_items descriptors h g
          = (Raise e, h ++ [permuted; bad_terms], g')
  end.
Proof.
  intros Hitems Hcatalog.
  destruct (shuffle_Permutation catalog g) as (permuted & Hsh & _).
  destruct (ref_bad_loop h input_items items permuted
              (drop (length catalog - 1) g) Hitems (length permuted) 0 [] 0 0)
    as (out & Hloop & Hout).
  unfold generate_bad_descriptor_list, copy, rbind. rewrite Hsh. unfold lift.
  unfold Ref.generate_bad_descriptor_list.
  erewrite bind_Return; [|by apply (list_copy_eq _ _ _ catalog)].
  erewrite bind_Return; [|by apply ref_shuffle].
  erewrite bind_Return; [|reflexivity].
  rewrite length_app, Nat.add_1_r, <- app_assoc. cbn [app].
  erewrite bind_Return;
    [|by apply (list_len_eq _ _ _ permuted), lookup_first_new].
  destruct (for_each (seq 0 (length permuted)) _ ([], 0, 0))
    as [[[bad_terms di] ii]|e].
  - subst out. exists permuted. by erewrite bind_Return; [|exact Hloop].
  - exists permuted, out, (drop (length catalog - 1) g).
    by erewrite bind_Raise; [|exact Hloop].
Qed.

(** The loop of [combine_lists], the list under construction being the
    first new object and the tentative lists coming after it. *)
Lemma ref_combine_loop (h : Ref.store) (bad_list : Ref.loc)
    (bad : list str) (length_limit : Z) (g : rng) :
  h !! bad_list = Some bad ->
  forall bound i (combined_terms : list str) (tests : Ref.store),
  length bad <= i + bound ->
  exists tests' : Ref.store,
    Ref.for_in bad_list
      (fun bad_term =>
         Ref.bind (Ref.list_add (length h) [bad_term]) (fun test_list =>
         Ref.bind (Ref.str_join (lit ", ") test_list) (fun test_string =>
         if (len test_string >? length_limit)%Z then Ref.ret true
         else Ref.bind (Ref.list_append (length h) bad_term)
                (fun _ => Ref.ret false))))
      i bound (h ++ combined_terms :: tests) g
    = (Return tt,
       h ++ combine_loop combined_terms (drop i bad) length_limit :: tests',
       g).
Proof.
  intros Hbad. induction bound as [|bound IH]; intros i acc tests Hbound.
  - exists tests. rewrite drop_ge by lia. done.
  - cbn [Ref.for_in].
    erewrite bind_Return; [|by apply (contents_eq _ _ _ bad), lookup_old].
    destruct (bad !! i) as [x|] eqn:Hi.
    2:{ exists tests. apply lookup_ge_None_1 in Hi.
        rewrite drop_ge by lia. done. }
    rewrite (drop_S _ _ _ Hi). cbn [combine_loop].
    set (test_list := acc ++ [x]).
    assert (Htest :
      ((h ++ acc :: tests) ++ [test_list]) !! length (h ++ acc :: tests)
        = Some test_list) by apply lookup_first_new.
    destruct (len (join (lit ", ") test_list) >? length_limit)%Z eqn:Hover.
    + exists (tests ++ [test_list]).
      erewrite bind_Return; cycle 1.
      { erewrite bind_Return;
          [|by apply (list_add_eq _ _ _ acc), lookup_first_new].
        erewrite bind_Return; [|by apply (str_join_eq _ _ _ test_list)].
        fold test_list. rewrite Hover. reflexivity. }
      cbn. by rewrite <- app_assoc.
    + destruct (IH (S i) test_list (tests ++ [test_list]) ltac:(lia))
        as (tests' & Hrun).
      exists tests'.
      erewrite bind_Return; cycle 1.
      { erewrite bind_Return;
          [|by apply (list_add_eq _ _ _ acc), lookup_first_new].
        erewrite bind_Return; [|by apply (str_join_eq _ _ _ test_list)].
        fold test_list. rewrite Hover.
        unfold Ref.list_append, Ref.update, Ref.bind, Ref.ret.
        rewrite <- app_assoc. cbn [app]. rewrite alter_first_new.
        reflexivity. }
      exact Hrun.
Qed.

(** On a store that holds the two argument lists, [Ref.combine_lists]
    returns the address of a new object that holds the list that the
    function on values returns, and raises when that one raises. *)
Lemma ref_combine_lists (h : Ref.store) (negated_list bad_list : Ref.loc)
    (negated bad : list str) (length_limit : Z) (combination_type : str)
    (g : rng) :
  h !! negated_list = Some negated ->
  h !! bad_list = Some bad ->
  match combine_lists negated bad length_limit combination_type with
  | Return combined =>
      exists tests : Ref.store,
        Ref.combine_lists negated_list bad_list length_limit
          combination_type h g
        = (Return (length h), h ++ combined :: tests, g)
  | Raise e =>
      Ref.combine_lists negated_list bad_list length_limit
        combination_type h g
      = (Raise e, h, g)
  end.
Proof.
  intros Hneg Hbad. unfold combine_lists, Ref.combine_lists.
  case_bool_decide; [|done].
  destruct (ref_combine_loop h bad_list bad length_limit g Hbad
              (length bad) 0 negated [] ltac:(lia))
    as (tests & Hloop).
  exists tests.
  erewrite bind_Return; cycle 1.
  { erewrite bind_Return; [|by apply (list_copy_eq _ _ _ negated)].
    erewrite bind_Return; [|by apply (list_len_eq _ _ _ bad), lookup_old].
    erewrite bind_Return; [|exact Hloop]. reflexivity. }
  reflexivity.
Qed.

(** * Further properties of the code *)

(** ** Trimming *)

Lemma lstrip_snoc (s : str) (c : char) :
  lstrip (s ++ [c]) =
    match lstrip s with
    | [] => if isspace c then [] else [c]
    | t => t ++ [c]
    end.
Proof.
  induction s as [|a s IH]; [cbn; by destruct (isspace c)|].
  cbn [app lstrip]. by destruct (isspace a).
Qed.

(** [rstrip] from the front of the string. *)
Lemma rstrip_cons (c : char) (s : str) :
  rstrip (c :: s) =
    match rstrip s with
    | [] => if isspace c then [] else [c]
    | t => c :: t
    end.
Proof.
  unfold rstrip. rewrite reverse_cons, lstrip_snoc.
  destruct (lstrip (reverse s)) as [|a t] eqn:Hs.
  - by destruct (isspace c).
  - rewrite reverse_app, reverse_singleton. cbn [app].
    destruct (reverse (a :: t)) eqn:Hr; [|done].
    apply (f_equal reverse) in Hr. rewrite reverse_involutive in Hr. done.
Qed.

Lemma rstrip_nil : rstrip [] = [].
Proof. done. Qed.

Lemma lstrip_rstrip (s : str) : lstrip (rstrip s) = rstrip (lstrip s).
Proof.
  induction s as [|c s IH]; [done|].
  rewrite rstrip_cons. cbn [lstrip].
  destruct (isspace c) eqn:Hc.
  - rewrite <- IH. destruct (rstrip s) as [|a t]; [done|].
    cbn [lstrip]. by rewrite Hc.
  - rewrite rstrip_cons.
    destruct (rstrip s) as [|a t]; cbn [lstrip]; by rewrite Hc.
Qed.

Lemma lstrip_idemp (s : str) : lstrip (lstrip s) = lstrip s.
Proof.
  induction s as [|c s IH]; [done|]. cbn [lstrip].
  destruct (isspace c) eqn:Hc; [done|]. cbn [lstrip]. by rewrite Hc.
Qed.

Lemma rstrip_idemp (s : str) : rstrip (rstrip s) = rstrip s.
Proof.
  unfold rstrip. by rewrite reverse_involutive, lstrip_idemp.
Qed.

Lemma strip_idemp (s : str) : strip (strip s) = strip s.
Proof.
  unfold strip.
  by rewrite (lstrip_rstrip (lstrip s)), lstrip_idemp, rstrip_idemp.
Qed.

Lemma lstrip_nil_iff (s : str) :
  lstrip s = [] <-> Forall (fun c => isspace c = true) s.
Proof.
  induction s as [|c s IH]; [done|]. cbn [lstrip].
  destruct (isspace c) eqn:Hc.
  - rewrite IH. split; [by constructor|by inversion 1].
  - split; [done|]. inversion 1. congruence.
Qed.

Lemma rstrip_nil_iff (s : str) :
  rstrip s = [] <-> Forall (fun c => isspace c = true) s.
Proof.
  induction s as [|c s IH]; [done|]. rewrite rstrip_cons.
  destruct (rstrip s) as [|a t] eqn:Hs.
  - destruct (isspace c) eqn:Hc.
    + split; [|done]. intros _. constructor; [done|]. by apply IH.
    + split; [done|]. inversion 1. congruence.
  - split; [done|]. inversion 1 as [|?? _ Hall]. by apply IH in Hall.
Qed.

(** A string trims to nothing exactly when it is all whitespace. *)
Lemma strip_nil_iff (s : str) :
  strip s = [] <-> Forall (fun c => isspace c = true) s.
Proof.
  unfold strip.
  by rewrite rstrip_nil_iff, <- lstrip_nil_iff, lstrip_idemp, lstrip_nil_iff.
Qed.

Lemma lstrip_elem_of (s : str) (x : char) : x ∈ lstrip s -> x ∈ s.
Proof.
  induction s as [|c s IH]; [done|]. cbn [lstrip].
  destruct (isspace c); [|done]. intros Hx. right. by apply IH.
Qed.

(** Trimming only removes characters. *)
Lemma strip_elem_of (s : str) (x : char) : x ∈ strip s -> x ∈ s.
Proof.
  unfold strip, rstrip. intros Hx.
  rewrite elem_of_reverse in Hx. apply lstrip_elem_of in Hx.
  rewrite elem_of_reverse in Hx. by apply lstrip_elem_of.
Qed.

(** Trimming sees neither leading nor trailing whitespace. *)
Lemma strip_cons_space (c : char) (s : str) :
  isspace c = true -> strip (c :: s) = strip s.
Proof. intros Hc. unfold strip. cbn [lstrip]. by rewrite Hc. Qed.

Lemma strip_rstrip_eq (s t : str) : rstrip s = rstrip t -> strip s = strip t.
Proof.
  intros Heq. unfold strip. by rewrite <- !lstrip_rstrip, Heq.
Qed.

Lemma strip_rstrip_strip (s t : str) :
  rstrip s = strip t -> strip s = strip t.
Proof.
  intros Heq. unfold strip at 1. rewrite <- lstrip_rstrip, Heq.
  unfold strip. by rewrite <- lstrip_rstrip, lstrip_idemp.
Qed.

(** ** Splitting *)

Lemma split_cons_comma (sep : char) (s : str) :
  split sep (sep :: s) = [] :: split sep s.
Proof. cbn [split]. by rewrite N.eqb_refl. Qed.

Lemma split_cons_other (sep c : char) (s h : str) (t : list str) :
  c <> sep -> split sep s = h :: t -> split sep (c :: s) = (c :: h) :: t.
Proof.
  intros Hc Hs. cbn [split]. rewrite Hs.
  by destruct (N.eqb_spec c sep).
Qed.

Lemma split_nonempty (sep : char) (s : str) :
  exists h t, split sep s = h :: t.
Proof.
  induction s as [|c s (h & t & IH)]; [by eexists _, _|].
  cbn [split]. rewrite IH. destruct (c =? sep)%N; by eexists _, _.
Qed.

(** Splitting at a separator splits the two sides. *)
Lemma split_app (sep : char) (a b : str) :
  split sep (a ++ sep :: b) = split sep a ++ split sep b.
Proof.
  induction a as [|c a IH]; [apply split_cons_comma|].
  cbn [app split]. rewrite IH.
  destruct (c =? sep)%N; [done|].
  by destruct (split_nonempty sep a) as (h & t & ->).
Qed.

(** The pieces hold the characters other than the separator. *)
Lemma split_Forall (sep : char) (Q : char -> Prop) (s : str) :
  Forall (Forall Q) (split sep s) <-> Forall (fun c => c = sep \/ Q c) s.
Proof.
  induction s as [|c s IH]; [split; by repeat constructor|].
  cbn [split]. destruct (split_nonempty sep s) as (h & t & Hs).
  rewrite Hs in IH |- *. rewrite (Forall_cons _ c s), <- IH.
  destruct (N.eqb_spec c sep) as [->|Hc].
  - rewrite (Forall_cons _ [] (h :: t)). intuition.
  - rewrite !Forall_cons. intuition.
Qed.

Lemma split_no_sep (sep : char) (s : str) :
  Forall (fun piece => sep ∉ piece) (split sep s).
Proof.
  induction s as [|c s IH]; [repeat constructor; by apply not_elem_of_nil|].
  cbn [split]. destruct (split_nonempty sep s) as (h & t & Hs).
  rewrite Hs in IH |- *. apply Forall_cons in IH as [Hh Ht].
  destruct (N.eqb_spec c sep) as [->|Hc].
  - repeat constructor; [by apply not_elem_of_nil|done|done].
  - constructor; [|done]. rewrite not_elem_of_cons. split; [done|done].
Qed.

Lemma split_single (sep : char) (s : str) : sep ∉ s -> split sep s = [s].
Proof.
  induction s as [|c s IH]; [done|].
  rewrite not_elem_of_cons. intros [Hc Hs].
  by apply split_cons_other; [|apply IH].
Qed.

(** ** What the two substitutions of [parse_input] are for *)

(** Runs of semicolons against one comma per semicolon: the pieces differ
    by empty pieces only. *)
Lemma semicolon_runs_pieces (s : str) :
  (exists h t t',
     split comma (NormalizerSpec.semicolon_runs false s) = h :: t /\
     split comma (as_comma <$> s) = h :: t' /\
     filter (fun p => p <> []) (strip <$> t)
       = filter (fun p => p <> []) (strip <$> t')) /\
  filter (fun p => p <> [])
    (strip <$> split comma (NormalizerSpec.semicolon_runs true s))
  = filter (fun p => p <> []) (strip <$> split comma (as_comma <$> s)).
Proof.
  induction s as [|c s [(h & t & t' & Hf & Hm & Ht) Htrue]].
  { split; [by exists [], [], []|done]. }
  cbn [NormalizerSpec.semicolon_runs fmap list_fmap]. unfold as_comma at 1 3.
  assert (Hfalse :
    filter (fun p => p <> [])
      (strip <$> split comma (NormalizerSpec.semicolon_runs false s))
    = filter (fun p => p <> []) (strip <$> split comma (as_comma <$> s))).
  { rewrite Hf, Hm, !fmap_cons, !filter_cons. by rewrite Ht. }
  destruct (N.eqb_spec c semicolon) as [->|Hc].
  - rewrite !split_cons_comma. split; [by eexists _, _, _|].
    rewrite Htrue. by rewrite fmap_cons, filter_cons.
  - destruct (N.eqb_spec c comma) as [->|Hcomma].
    + rewrite !split_cons_comma. split; [by eexists _, _, _|].
      by rewrite !fmap_cons, !filter_cons, Hfalse.
    + rewrite (split_cons_other _ _ _ _ _ Hcomma Hf),
        (split_cons_other _ _ _ _ _ Hcomma Hm).
      split; [by eexists _, _, _|].
      by rewrite !fmap_cons, !filter_cons, Ht.
Qed.

Lemma before_comma_head (s h : str) (t : list str) :
  NormalizerSpec.before_comma s = true -> split comma s = h :: t ->
  Forall (fun c => isspace c = true) h.
Proof.
  unfold NormalizerSpec.before_comma. revert h t.
  induction s as [|c s IH]; intros h t; [done|]. cbn [lstrip].
  destruct (isspace c) eqn:Hc.
  - intros Hs Hsplit.
    destruct (split_nonempty comma s) as (h0 & t0 & Hs0).
    pose proof (isspace_not_comma c Hc) as Hne%N.eqb_neq.
    rewrite (split_cons_other _ _ _ _ _ Hne Hs0) in Hsplit.
    injection Hsplit as <- <-. constructor; [done|]. by eapply IH.
  - intros Hcomma%N.eqb_eq. subst c. rewrite split_cons_comma.
    by intros [= <- <-].
Qed.

(** Collapsing the whitespace around commas against no collapsing: the
    pieces differ by whitespace at their ends only. *)
Lemma collapse_pieces (s : str) :
  (exists h' t' h t,
     split comma (NormalizerSpec.collapse false s) = h' :: t' /\
     split comma s = h :: t /\
     rstrip h' = rstrip h /\ strip <$> t' = strip <$> t) /\
  (exists h' t' h t,
     split comma (NormalizerSpec.collapse true s) = h' :: t' /\
     split comma s = h :: t /\
     rstrip h' = strip h /\ strip <$> t' = strip <$> t).
Proof.
  induction s as [|c s [(hf' & tf' & hf & tf & Hf' & Hf & Hfh & Hft)
                        (hg' & tg' & hg & tg & Hg' & Hg & Hgh & Hgt)]].
  { split; by exists [], [], [], []. }
  rewrite Hf in Hg. injection Hg as <- <-.
  cbn [NormalizerSpec.collapse].
  destruct (N.eqb_spec c comma) as [->|Hcomma].
  - rewrite !split_cons_comma.
    assert (strip <$> hg' :: tg' = strip <$> hf :: tf).
    { rewrite !fmap_cons, Hgt. f_equal. by apply strip_rstrip_strip. }
    rewrite Hg', Hf. split; by eexists _, _, _, _.
  - rewrite (split_cons_other _ _ _ _ _ Hcomma Hf).
    destruct (isspace c) eqn:Hc.
    + split.
      * cbn [orb].
        destruct (NormalizerSpec.before_comma s) eqn:Hbefore.
        -- exists hf', tf', (c :: hf), tf.
           split; [exact Hf'|]. split; [done|]. split; [|exact Hft].
           pose proof (before_comma_head _ _ _ Hbefore Hf) as Hws.
           rewrite Hfh, rstrip_cons, (proj2 (rstrip_nil_iff hf) Hws).
           by rewrite Hc.
        -- rewrite (split_cons_other _ _ _ _ _ Hcomma Hf').
           exists (c :: hf'), tf', (c :: hf), tf.
           split; [done|]. split; [done|]. split; [|exact Hft].
           by rewrite !rstrip_cons, Hfh.
      * cbn [orb]. exists hg', tg', (c :: hf), tf.
        split; [exact Hg'|]. split; [done|]. split; [|exact Hgt].
        by rewrite strip_cons_space.
    + rewrite (split_cons_other _ _ _ _ _ Hcomma Hf').
      split; exists (c :: hf'), tf', (c :: hf), tf;
        (split; [done|]; split; [done|]; split; [|exact Hft]).
      * by rewrite !rstrip_cons, Hfh.
      * unfold strip. cbn [lstrip]. rewrite Hc.
        by rewrite !rstrip_cons, Hfh.
Qed.

(** [parse_input] in one pass: cut at every comma and every semicolon, trim
    the pieces, drop the empty ones.  The two substitutions change nothing
    that trimming and dropping would not. *)
Lemma parse_input_pieces (raw_input : str) :
  parse_input raw_input
    = filter (fun p => p <> [])
        (strip <$> split comma (as_comma <$> raw_input)).
Proof.
  unfold parse_input, re_sub.
  rewrite (proj2 (sub_scan_semicolons raw_input)), sub_scan_comma_spacing.
  rewrite strip_filter.
  destruct (collapse_pieces (NormalizerSpec.semicolon_runs false raw_input))
    as [(h' & t' & h & t & -> & Hs & Hh & Ht) _].
  destruct (semicolon_runs_pieces raw_input)
    as [(h0 & t0 & t0' & Hs0 & -> & Ht0) _].
  rewrite Hs0 in Hs. injection Hs as <- <-.
  rewrite !fmap_cons, !filter_cons, Ht, Ht0.
  by rewrite (strip_rstrip_eq _ _ Hh).
Qed.

(** ** The items of [parse_input] *)

Lemma as_comma_not_semicolon (c : char) : as_comma c <> semicolon.
Proof.
  unfold as_comma. destruct (N.eqb_spec c semicolon); [done|done].
Qed.

Lemma as_comma_id (s : str) : semicolon ∉ s -> as_comma <$> s = s.
Proof.
  induction s as [|c s IH]; [done|].
  rewrite not_elem_of_cons. intros [Hc Hs]. cbn. rewrite IH by done.
  unfold as_comma. by destruct (N.eqb_spec c semicolon).
Qed.

(** An item is a piece of the input, trimmed. *)
Lemma parse_input_item_piece (raw_input item : str) :
  item ∈ parse_input raw_input ->
  exists piece,
    item = strip piece /\ strip piece <> [] /\
    piece ∈ split comma (as_comma <$> raw_input).
Proof.
  rewrite parse_input_pieces. intros Hitem.
  apply list_elem_of_filter in Hitem as [Hne Hitem].
  apply list_elem_of_fmap in Hitem as (piece & -> & Hpiece). eauto.
Qed.

Lemma piece_no_delimiter (raw_input piece : str) :
  piece ∈ split comma (as_comma <$> raw_input) ->
  (comma ∉ piece) /\ (semicolon ∉ piece).
Proof.
  intros Hpiece. split.
  - pose proof (split_no_sep comma (as_comma <$> raw_input)) as Hsep.
    rewrite Forall_forall in Hsep. by apply Hsep.
  - assert (Hall : Forall (Forall (fun c => c <> semicolon))
                     (split comma (as_comma <$> raw_input))).
    { apply split_Forall, Forall_fmap, Forall_true. intros c. right.
      apply as_comma_not_semicolon. }
    rewrite Forall_forall in Hall. specialize (Hall piece Hpiece).
    rewrite Forall_forall in Hall. intros Hin. by apply (Hall semicolon).
Qed.

(** X1. Every item that [parse_input] returns is non-empty, has no
    whitespace at either end, and contains neither a comma nor a
    semicolon. *)
Theorem parse_input_items_clean (raw_input : str) :
  Forall (fun item =>
            item <> [] /\ strip item = item /\
            (comma ∉ item) /\ (semicolon ∉ item))
    (parse_input raw_input).
Proof.
  apply Forall_forall. intros item Hitem.
  destruct (parse_input_item_piece _ _ Hitem) as (piece & -> & Hne & Hpiece).
  destruct (piece_no_delimiter _ _ Hpiece) as [Hcomma Hsemi].
  split; [done|]. split; [apply strip_idemp|].
  split; intros Hin%strip_elem_of; done.
Qed.

(** X2. [parse_input] treats commas and semicolons alike and needs neither
    of its two substitutions: its result is the input cut at every comma
    and every semicolon, each piece trimmed, the empty ones dropped; so
    writing a comma for every semicolon changes nothing. *)
Theorem parse_input_one_pass (raw_input : str) :
  parse_input raw_input
    = filter (fun piece => piece <> [])
        (strip <$>
           split comma
             ((fun c => if (c =? semicolon)%N then comma else c)
                <$> raw_input)) /\
  parse_input
    ((fun c => if (c =? semicolon)%N then comma else c) <$> raw_input)
    = parse_input raw_input.
Proof.
  split; [apply parse_input_pieces|].
  rewrite !parse_input_pieces. do 3 f_equal.
  rewrite <- list_fmap_compose. apply list_fmap_ext. intros _ c _.
  cbn. unfold as_comma.
  destruct (c =? semicolon)%N eqn:Hc; [done|]. by rewrite Hc.
Qed.

Lemma parse_input_app_comma (a b : str) :
  parse_input (a ++ comma :: b) = parse_input a ++ parse_input b.
Proof.
  rewrite !parse_input_pieces, fmap_app, fmap_cons.
  change (as_comma comma) with comma.
  by rewrite split_app, fmap_app, filter_app.
Qed.

Lemma parse_input_app_semicolon (a b : str) :
  parse_input (a ++ semicolon :: b) = parse_input a ++ parse_input b.
Proof.
  rewrite !parse_input_pieces, fmap_app, fmap_cons.
  change (as_comma semicolon) with comma.
  by rewrite split_app, fmap_app, filter_app.
Qed.

(** X3. A comma or a semicolon between two texts puts their items one after
    the other. *)
Theorem parse_input_app (a b : str) :
  parse_input (a ++ lit "," ++ b) = parse_input a ++ parse_input b /\
  parse_input (a ++ lit ";" ++ b) = parse_input a ++ parse_input b.
Proof.
  split; [apply parse_input_app_comma | apply parse_input_app_semicolon].
Qed.

Lemma parse_input_cons_space (c : char) (s : str) :
  isspace c = true -> parse_input (c :: s) = parse_input s.
Proof.
  intros Hc. rewrite !parse_input_pieces, fmap_cons.
  pose proof (isspace_not_comma c Hc) as Hcomma%N.eqb_neq.
  assert (as_comma c = c) as ->.
  { unfold as_comma. destruct (N.eqb_spec c semicolon) as [->|]; [|done].
    by vm_compute in Hc. }
  destruct (split_nonempty comma (as_comma <$> s)) as (h & t & Hs).
  rewrite (split_cons_other _ _ _ _ _ Hcomma Hs), Hs, !fmap_cons.
  by rewrite strip_cons_space.
Qed.

Lemma parse_input_clean_item (item : str) :
  clean_item item -> parse_input item = [item].
Proof.
  intros (Hne & Hstrip & Hcomma & Hsemi).
  rewrite parse_input_pieces, as_comma_id, split_single by done.
  cbn. rewrite Hstrip. by rewrite decide_True.
Qed.

Lemma parse_input_join (items : list str) :
  Forall clean_item items -> parse_input (join (lit ", ") items) = items.
Proof.
  induction 1 as [|x l Hx Hl IH]; [done|].
  destruct l as [|y l]; [by apply parse_input_clean_item|].
  change (join (lit ", ") (x :: y :: l))
    with (x ++ comma :: 32%N :: join (lit ", ") (y :: l)).
  rewrite parse_input_app_comma, parse_input_cons_space by done.
  by rewrite IH, parse_input_clean_item.
Qed.

(** X4. Rendering and parsing are inverse on items: a list of items that are
    non-empty, trimmed and free of delimiters, joined with [", "], parses
    back to the same list.  In particular the items of any input, rendered
    and parsed again, come back unchanged. *)
Theorem parse_input_join_roundtrip :
  (forall items : list str,
     Forall (fun item =>
               item <> [] /\ strip item = item /\
               (comma ∉ item) /\ (semicolon ∉ item)) items ->
     parse_input (join (lit ", ") items) = items) /\
  (forall raw_input : str,
     parse_input (join (lit ", ") (parse_input raw_input))
       = parse_input raw_input).
Proof.
  split; [apply parse_input_join|].
  intros raw. apply parse_input_join, Forall_forall. intros item Hitem.
  destruct (parse_input_item_piece _ _ Hitem) as (piece & -> & Hne & Hpiece).
  destruct (piece_no_delimiter _ _ Hpiece) as [Hcomma Hsemi].
  split; [done|]. split; [apply strip_idemp|].
  split; intros Hin%strip_elem_of; done.
Qed.

Lemma parse_input_join_roundtrip_witness :
  parse_input (join (lit ", ") [lit "cat"; lit "big dog"])
    = [lit "cat"; lit "big dog"].
Proof.
  apply (proj1 parse_input_join_roundtrip).
  repeat apply Forall_cons_2; [..|apply Forall_nil_2];
    (split; [done|]; split; [by vm_compute|];
     split; apply (bool_decide_unpack _); by vm_compute).
Defined.

Lemma filter_nil_Forall {A} (P : A -> Prop) `{!forall x, Decision (P x)}
    (l : list A) :
  filter P l = [] <-> Forall (fun x => ~ P x) l.
Proof.
  induction l as [|x l IH]; [done|]. rewrite filter_cons, Forall_cons.
  destruct (decide (P x)) as [HP|HP].
  - split; [done|]. by intros [? _].
  - rewrite IH. split; [done|]. by intros [_ ?].
Qed.

(** X5. [parse_input] finds no item exactly when the input consists of
    whitespace, commas and semicolons only; this is the case in which
    [main] prints its notice instead of generating. *)
Theorem parse_input_nil_iff (raw_input : str) :
  parse_input raw_input = [] <->
  Forall (fun c => isspace c = true \/ c = comma \/ c = semicolon) raw_input.
Proof.
  rewrite parse_input_pieces, filter_nil_Forall, Forall_fmap.
  transitivity (Forall (Forall (fun c => isspace c = true))
                  (split comma (as_comma <$> raw_input))).
  - apply Forall_iff. intros piece. cbn. rewrite <- strip_nil_iff.
    split; [|by intros Heq Hne].
    intros Hnn. by destruct (decide (strip piece = [])).
  - rewrite split_Forall, Forall_fmap. apply Forall_iff. intros c. cbn.
    unfold as_comma. destruct (N.eqb_spec c semicolon) as [->|Hc].
    + split; intros _; auto.
    + split; [intros [?|?]; auto|intros [?|[?|?]]; auto; done].
Qed.

(** ** More on the budget *)

Lemma combine_loop_extends (bad_list combined_terms : list str)
    (length_limit : Z) :
  combined_terms `prefix_of` combine_loop combined_terms bad_list length_limit.
Proof.
  destruct (combine_loop_spec bad_list combined_terms length_limit)
    as (k & _ & -> & _).
  by apply prefix_app_r.
Qed.

Lemma combine_loop_mono (bad_list : list str) :
  forall (combined_terms : list str) (limit1 limit2 : Z),
  (limit1 <= limit2)%Z ->
  combine_loop combined_terms bad_list limit1
    `prefix_of` combine_loop combined_terms bad_list limit2.
Proof.
  induction bad_list as [|b rest IH]; intros acc limit1 limit2 Hle; [done|].
  cbn [combine_loop].
  destruct (Z.gtb_spec (len (join (lit ", ") (acc ++ [b]))) limit1) as [H1|H1];
    destruct (Z.gtb_spec (len (join (lit ", ") (acc ++ [b]))) limit2)
      as [H2|H2].
  - done.
  - etrans; [|apply combine_loop_extends]. by apply prefix_app_r.
  - lia.
  - by apply IH.
Qed.

(** X6. A larger budget never loses a term: in ["negated_first"] mode the
    result under a budget is an initial segment of the result under any
    larger budget. *)
Theorem combine_lists_budget_monotone (negated_list bad_list : list str)
    (limit1 limit2 : Z) :
  (limit1 <= limit2)%Z ->
  exists combined1 combined2,
    combine_lists negated_list bad_list limit1 (lit "negated_first")
      = Return combined1 /\
    combine_lists negated_list bad_list limit2 (lit "negated_first")
      = Return combined2 /\
    combined1 `prefix_of` combined2 /\
    length combined1 <= length combined2.
Proof.
  intros Hle. rewrite !combine_lists_negated_first.
  pose proof (combine_loop_mono bad_list negated_list _ _ Hle) as Hpre.
  eexists _, _. repeat split; [exact Hpre|].
  by apply prefix_length.
Qed.

Lemma combine_lists_budget_monotone_witness :
  exists combined1 combined2,
    combine_lists [lit "no a"] [lit "X a"; lit "Y a"] 9 (lit "negated_first")
      = Return combined1 /\
    combine_lists [lit "no a"] [lit "X a"; lit "Y a"] 20 (lit "negated_first")
      = Return combined2 /\
    combined1 `prefix_of` combined2 /\
    length combined1 <= length combined2.
Proof.
  apply (combine_lists_budget_monotone [lit "no a"] [lit "X a"; lit "Y a"]).
  lia.
Defined.

(** X7. In ["negated_first"] mode every bad-descriptor term is kept exactly
    when the serialization of the two lists together is within the budget
    (the bad-descriptor list not being empty). *)
Theorem combine_lists_keeps_all_iff (negated_list bad_list : list str)
    (length_limit : Z) :
  bad_list <> [] ->
  combine_lists negated_list bad_list length_limit (lit "negated_first")
    = Return (negated_list ++ bad_list) <->
  (len (join (lit ", ") (negated_list ++ bad_list)) <= length_limit)%Z.
Proof.
  intros Hbad. rewrite combine_lists_negated_first. split.
  - intros [= Heq].
    destruct (combine_loop_spec bad_list negated_list length_limit)
      as (k & Hk & Hloop & Hacc & _).
    rewrite Hloop in Heq. apply app_inv_head in Heq.
    assert (k = length bad_list) as ->.
    { apply (f_equal length) in Heq. rewrite length_take in Heq. lia. }
    destruct bad_list as [|b rest]; [done|].
    specialize (Hacc (length rest) ltac:(cbn; lia)).
    change (S (length rest)) with (length (b :: rest)) in Hacc.
    by rewrite Heq in Hacc.
  - intros Hfit. by rewrite combine_loop_all_fit.
Qed.

Lemma combine_lists_keeps_all_iff_witness :
  combine_lists [lit "no a"] [lit "X a"; lit "Y a"] 20 (lit "negated_first")
    = Return ([lit "no a"] ++ [lit "X a"; lit "Y a"]).
Proof.
  apply (combine_lists_keeps_all_iff [lit "no a"] [lit "X a"; lit "Y a"] 20);
    [done|by vm_compute].
Defined.

(** ** When the generators fail *)

(** X8. [generate_positive_list] fails in one way only: with no items and
    something to mirror it divides by zero; in every other case it returns,
    and with nothing to mirror it returns the empty list. *)
Theorem generate_positive_list_fails_iff {A B} (input_items : list A)
    (combined_negative_list : list B) (e : exn) :
  (generate_positive_list input_items combined_negative_list = Raise e <->
   e = ZeroDivisionError /\ input_items = [] /\
   combined_negative_list <> []) /\
  generate_positive_list input_items ([] : list B) = Return [].
Proof.
  split; [|done]. split.
  - intros Hraise. destruct input_items as [|x items].
    + destruct combined_negative_list as [|c l]; [done|].
      cbn in Hraise. by injection Hraise as <-.
    + destruct (positive_list_run (x :: items) combined_negative_list)
        as (out & Hrun & _); [done|]. congruence.
  - intros (-> & -> & Hne).
    by destruct combined_negative_list as [|c l].
Qed.

Lemma shuffle_nil {A} (g : rng) : shuffle ([] : list A) g = Return ([], g).
Proof. reflexivity. Qed.

Lemma bad_descriptor_list_no_items (catalog : list str) (g : rng) :
  catalog <> [] ->
  generate_bad_descriptor_list [] catalog g = Raise ZeroDivisionError.
Proof.
  intros Hne. unfold generate_bad_descriptor_list, rbind, copy.
  destruct (shuffle_Permutation catalog g) as (p & -> & Hp).
  apply Permutation_length in Hp.
  destruct p as [|d p]; [by destruct catalog|].
  unfold lift. cbn [length seq for_each].
  rewrite py_mod_pos by done. cbn [bind].
  rewrite Nat.Div0.mod_0_l. reflexivity.
Qed.

(** X9. [generate_bad_descriptor_list] fails in one way only: with no items
    and a non-empty catalog it divides by zero.  With an empty catalog it
    returns the empty list and draws nothing, whatever the items. *)
Theorem generate_bad_descriptor_list_fails_iff
    (input_items catalog : list str) (g : rng) (e : exn) :
  (generate_bad_descriptor_list input_items catalog g = Raise e <->
   e = ZeroDivisionError /\ input_items = [] /\ catalog <> []) /\
  generate_bad_descriptor_list input_items [] g = Return ([], g).
Proof.
  split; [|done]. split.
  - intros Hraise. destruct input_items as [|x items].
    + destruct catalog as [|d catalog]; [done|].
      rewrite bad_descriptor_list_no_items in Hraise by done.
      by injection Hraise as <-.
    + destruct (bad_descriptor_list_run (x :: items) catalog g)
        as (bad & g' & Hrun & _); [done|]. congruence.
  - intros (-> & -> & Hne). by apply bad_descriptor_list_no_items.
Qed.

(** ** The two versions, term by term *)






(** X12. [build_versions] fails in one way only: with no items and a
    non-empty catalog it divides by zero, which is what the guard of [main]
    prevents. *)
Theorem build_versions_fails_iff (input_items catalog : list str) (g : rng)
    (e : exn) :
  build_versions input_items catalog g = Raise e <->
  e = ZeroDivisionError /\ input_items = [] /\ catalog <> [].
Proof.
  split.
  - intros Hraise. destruct input_items as [|x items].
    + destruct catalog as [|d catalog]; [done|].
      unfold build_versions, rbind in Hraise.
      cbn [generate_negated_list for_each_rand rret] in Hraise.
      rewrite bad_descriptor_list_no_items in Hraise by done.
      by injection Hraise as <-.
    + destruct (build_versions_run (x :: items) catalog g)
        as (? & ? & ? & ? & out & ? & g2 & _ & _ & _ & _ & Hrun & _);
        [done|]. congruence.
  - intros (-> & -> & Hne). unfold build_versions, rbind.
    cbn [generate_negated_list for_each_rand rret].
    by rewrite bad_descriptor_list_no_items.
Qed.

(** ** The printed versions are valid input *)









(** ** Reading items line by line *)

Section MultilineInput.
Variable upper : str -> str.

Lemma input_line (prompt line : str) (rest : list str) (out : str) (g : rng) :
  input prompt (World (line :: rest) out g)
    = (Done line, World rest (out ++ prompt) g).
Proof. reflexivity. Qed.

Lemma input_eof (prompt out : str) (g : rng) :
  input prompt (World [] out g) = (Failed EOFError, World [] (out ++ prompt) g).
Proof. reflexivity. Qed.

Lemma io_bind_Done {A B} (m : IO A) (k : A -> IO B) (w w' : world) (a : A) :
  m w = (Done a, w') -> io_bind m k w = k a w'.
Proof. unfold io_bind. by intros ->. Qed.

Lemma io_bind_Failed {A B} (m : IO A) (k : A -> IO B) (w w' : world)
    (e : session_exn) :
  m w = (Failed e, w') -> io_bind m k w = (Failed e, w').
Proof. unfold io_bind. by intros ->. Qed.

(** One round of the loop on a line that is not the terminator. *)
Lemma get_multiline_loop_step (fuel : nat) (items : list str) (line : str)
    (rest : list str) (out : str) (g : rng) :
  upper (strip line) <> lit "END" ->
  get_multiline_loop upper (S fuel) items (World (line :: rest) out g)
    = get_multiline_loop upper fuel
        (items ++ filter (fun l => l <> []) [strip line])
        (World rest out g).
Proof.
  intros Hline. cbn [get_multiline_loop].
  rewrite (io_bind_Done _ _ _ _ _ (input_line _ _ _ _ _)), app_nil_r.
  rewrite bool_decide_eq_false_2 by done.
  rewrite filter_cons, filter_nil.
  case_bool_decide; [by rewrite decide_True|].
  rewrite decide_False by (by intros ?). by rewrite app_nil_r.
Qed.

Lemma get_multiline_loop_reads (before : list str) :
  forall (fuel : nat) (items : list str) (terminator : str)
         (rest : list str) (out : str) (g : rng),
  Forall (fun line => upper (strip line) <> lit "END") before ->
  upper (strip terminator) = lit "END" ->
  length before < fuel ->
  get_multiline_loop upper fuel items
    (World (before ++ terminator :: rest) out g)
  = (Done (items ++ filter (fun l => l <> []) (strip <$> before)),
     World rest out g).
Proof.
  induction before as [|line before IH];
    intros fuel items terminator rest out g Hbefore Hend Hfuel.
  - destruct fuel as [|fuel]; [cbn in Hfuel; lia|].
    cbn [app get_multiline_loop].
    rewrite (io_bind_Done _ _ _ _ _ (input_line _ _ _ _ _)), !app_nil_r.
    by rewrite bool_decide_eq_true_2.
  - apply Forall_cons in Hbefore as [Hline Hbefore].
    destruct fuel as [|fuel]; [cbn in Hfuel; lia|].
    cbn [app]. rewrite get_multiline_loop_step by done.
    rewrite IH by (done || (cbn in Hfuel; lia)).
    by rewrite <- app_assoc, fmap_cons, <- filter_app.
Qed.

Lemma get_multiline_loop_eof (lines : list str) :
  forall (fuel : nat) (items : list str) (out : str) (g : rng),
  Forall (fun line => upper (strip line) <> lit "END") lines ->
  length lines < fuel ->
  get_multiline_loop upper fuel items (World lines out g)
  = (Failed EOFError, World [] out g).
Proof.
  induction lines as [|line lines IH]; intros fuel items out g Hlines Hfuel.
  - destruct fuel as [|fuel]; [cbn in Hfuel; lia|].
    cbn [get_multiline_loop].
    by rewrite (io_bind_Failed _ _ _ _ _ (input_eof _ _ _)), app_nil_r.
  - apply Forall_cons in Hlines as [Hline Hlines].
    destruct fuel as [|fuel]; [cbn in Hfuel; lia|].
    rewrite get_multiline_loop_step by done.
    apply IH; [done|cbn in Hfuel; lia].
Qed.

(** X13. [get_multiline_input] prints its instruction and reads up to the
    first line that, once trimmed and put in upper case, is ["END"]: it
    returns the lines before it, trimmed, without the empty ones, in order;
    the terminator is consumed and not returned, and the lines after it
    are left unread. *)
Theorem get_multiline_input_reads (fuel : nat) (before : list str)
    (terminator : str) (rest : list str) (out : str) (g : rng) :
  Forall (fun line => upper (strip line) <> lit "END") before ->
  upper (strip terminator) = lit "END" ->
  length before < fuel ->
  get_multiline_input upper fuel (World (before ++ terminator :: rest) out g)
  = (Done (filter (fun line => line <> []) (strip <$> before)),
     World rest
       (out ++ lit "Enter items one per line. "
            ++ lit "Type 'END' on a new line when finished:" ++ [10%N])
       g).
Proof.
  intros Hbefore Hend Hfuel. unfold get_multiline_input.
  erewrite io_bind_Done; [|reflexivity]. cbn [stdin stdout generator].
  rewrite (get_multiline_loop_reads before) by done.
  cbn [app]. do 3 f_equal.
Qed.

(** X14. When no line left on standard input is the terminator,
    [get_multiline_input] reads them all and then fails with [EOFError]:
    the items read so far are lost. *)
Theorem get_multiline_input_eof (fuel : nat) (lines : list str) (out : str)
    (g : rng) :
  Forall (fun line => upper (strip line) <> lit "END") lines ->
  length lines < fuel ->
  exists out',
    get_multiline_input upper fuel (World lines out g)
      = (Failed EOFError, World [] out' g).
Proof.
  intros Hlines Hfuel. unfold get_multiline_input.
  erewrite io_bind_Done; [|reflexivity]. cbn [stdin stdout generator].
  rewrite get_multiline_loop_eof by done. by eexists.
Qed.

Lemma get_multiline_loop_items (P : str -> Prop) (fuel : nat) :
  (forall line, strip line <> [] -> upper (strip line) <> lit "END" ->
     P (strip line)) ->
  forall (items items' : list str) (w w' : world),
  Forall P items ->
  get_multiline_loop upper fuel items w = (Done items', w') ->
  Forall P items'.
Proof.
  intros HP. induction fuel as [|fuel IH]; intros items items' w w' Hitems;
    [done|].
  cbn [get_multiline_loop]. unfold io_bind.
  destruct (input [] w) as [[raw| |] w1]; [|done|done].
  case_bool_decide as Hend; [by intros [= <- <-]|].
  case_bool_decide as Hne; [|by apply IH].
  apply IH. apply Forall_app. split; [done|]. repeat constructor.
  by apply HP.
Qed.

(** X15. Whatever is on standard input, an item that
    [get_multiline_input] returns is non-empty, has no whitespace at either
    end, and is not the terminator. *)
Theorem get_multiline_input_items (fuel : nat) (w w' : world)
    (items : list str) :
  get_multiline_input upper fuel w = (Done items, w') ->
  Forall (fun item =>
            item <> [] /\ strip item = item /\ upper item <> lit "END")
    items.
Proof.
  unfold get_multiline_input, io_bind. cbn [print].
  apply get_multiline_loop_items; [|done].
  intros line Hne Hend. split; [done|]. split; [apply strip_idemp|done].
Qed.

End MultilineInput.

Lemma get_multiline_input_reads_witness :
  get_multiline_input ascii_upper 5
    (World [lit " x "; lit ""; lit "y"; lit " End "; lit "z"] [] [])
  = (Done [lit "x"; lit "y"],
     World [lit "z"]
       (lit "Enter items one per line. "
          ++ lit "Type 'END' on a new line when finished:" ++ [10%N])
       []).
Proof.
  apply (get_multiline_input_reads ascii_upper 5
           [lit " x "; lit ""; lit "y"] (lit " End ") [lit "z"] [] []);
    [|by vm_compute|cbn; lia].
  repeat apply Forall_cons_2; [..|apply Forall_nil_2]; by vm_compute.
Defined.

Lemma get_multiline_input_eof_witness :
  exists out',
    get_multiline_input ascii_upper 3 (World [lit "x"; lit "y"] [] [])
      = (Failed EOFError, World [] out' []).
Proof.
  apply (get_multiline_input_eof ascii_upper 3 [lit "x"; lit "y"] [] []);
    [|cbn; lia].
  repeat apply Forall_cons_2; [..|apply Forall_nil_2]; by vm_compute.
Defined.

Lemma get_multiline_input_items_witness :
  Forall (fun item =>
            item <> [] /\ strip item = item /\
            ascii_upper item <> lit "END")
    [lit "x"; lit "y"].
Proof.
  apply (get_multiline_input_items ascii_upper 5
           (World [lit " x "; lit ""; lit "y"; lit " End "; lit "z"] [] [])
           (World [lit "z"]
              (lit "Enter items one per line. "
                 ++ lit "Type 'END' on a new line when finished:" ++ [10%N])
              [])).
  by vm_compute.
Defined.

(** ** The session *)

Section Runs.
Variable L : str -> Prop.

Lemma runs_ret {A} (a : A) (n n' : nat) (Q : A -> Prop) :
  Q a -> n <= n' -> runs L (io_ret a) n n' Q.
Proof. intros Ha Hn w HL Hlen. cbn. auto with lia. Qed.

Lemma runs_bind {A B} (m : IO A) (k : A -> IO B) (n n' n'' : nat)
    (Q : A -> Prop) (R : B -> Prop) :
  runs L m n n' Q -> (forall a, Q a -> runs L (k a) n' n'' R) ->
  runs L (io_bind m k) n n'' R.
Proof.
  intros Hm Hk w HL Hlen. specialize (Hm w HL Hlen). unfold io_bind.
  destruct (m w) as [[a|[|e]|] w1]; try done.
  destruct Hm as (HL1 & Hlen1 & Ha). by apply Hk.
Qed.

Lemma runs_weaken {A} (m : IO A) (n n' n'' : nat) (Q Q' : A -> Prop) :
  runs L m n n' Q -> n' <= n'' -> (forall a, Q a -> Q' a) ->
  runs L m n n'' Q'.
Proof.
  intros Hm Hn HQ w HL Hlen. specialize (Hm w HL Hlen).
  destruct (m w) as [[a|[|e]|] w1]; try done.
  destruct Hm as (HL1 & Hlen1 & Ha). auto with lia.
Qed.

(** A line that is read was there, and it is gone afterwards. *)
Lemma runs_input (prompt : str) (n : nat) :
  runs L (input prompt) n (pred n) (fun line => L line /\ 0 < n).
Proof.
  intros [[|line rest] out g] HL Hlen; [done|]. cbn in *.
  apply Forall_cons in HL as [Hline Hrest]. repeat split; [done|lia|done|lia].
Qed.

Lemma runs_print (s : str) (n : nat) :
  runs L (print s) n n (fun _ => True).
Proof. intros w HL Hlen. by cbn. Qed.

Lemma runs_io_rand {A} (m : Rand A) (n : nat) (Q : A -> Prop) :
  (forall g, exists a g', m g = Return (a, g') /\ Q a) ->
  runs L (io_rand m) n n Q.
Proof.
  intros Hm w HL Hlen. unfold io_rand.
  by destruct (Hm (generator w)) as (a & g' & -> & Ha).
Qed.

Lemma runs_print_all (lines : list str) (n : nat) :
  runs L (print_all lines) n n (fun _ => True).
Proof.
  induction lines as [|line lines IH]; [by apply runs_ret|].
  cbn [print_all]. eapply runs_bind; [apply runs_print|]. by intros _ _.
Qed.

(** On a non-empty item list the generation goes through. *)
Lemma runs_build_versions (input_items descs : list str) (n : nat) :
  input_items <> [] ->
  runs L (run_build_versions input_items descs) n n (fun _ => True).
Proof.
  intros Hne.
  eapply (runs_bind _ _ _ n _ (fun _ => True));
    [|intros printed _; apply runs_print_all].
  apply runs_io_rand. intros g.
  destruct (build_versions_run input_items descs g Hne)
    as (? & ? & ? & ? & printed & ? & g2 & _ & _ & _ & _ & Hrun & _).
  by exists printed, g2.
Qed.

Variables upper lower : str -> str.

Lemma runs_get_multiline_loop (fuel : nat) :
  forall (n : nat) (items : list str),
  n < fuel ->
  runs L (get_multiline_loop upper fuel items) n n (fun _ => True).
Proof.
  induction fuel as [|fuel IH]; intros n items Hn; [lia|].
  cbn [get_multiline_loop].
  eapply runs_bind; [apply runs_input|]. intros raw [_ Hpos]. cbn zeta.
  case_bool_decide; [apply runs_ret; [done|lia]|].
  case_bool_decide;
    (eapply runs_weaken; [apply IH; lia|lia|done]).
Qed.

Lemma runs_get_multiline_input (fuel n : nat) :
  n < fuel -> runs L (get_multiline_input upper fuel) n n (fun _ => True).
Proof.
  intros Hn. eapply runs_bind; [apply runs_print|].
  intros _ _. by apply runs_get_multiline_loop.
Qed.

(** The loop of [main]: [Qd] is what is known when it ends on ["exit"]. *)
Lemma runs_main_loop (Qd : Prop) (descs : list str) (fuel : nat) :
  (forall line, L line -> lower line = lit "exit" -> Qd) ->
  forall n, n < fuel ->
  runs L (main_loop upper lower fuel descs) n n (fun _ => Qd).
Proof.
  intros Hexit. induction fuel as [|fuel IH]; intros n Hn; [lia|].
  cbn [main_loop].
  eapply runs_bind; [apply runs_input|]. intros raw [Hraw Hpos].
  case_bool_decide as Hquit; [apply runs_ret; [eauto|lia]|].
  eapply (runs_bind _ _ _ (pred n) _ (fun _ => True)).
  { case_bool_decide.
    - apply runs_get_multiline_input. lia.
    - by apply runs_ret. }
  intros items _. case_bool_decide as Hempty.
  - eapply runs_bind; [apply runs_print|]. intros _ _.
    eapply runs_weaken; [apply IH; lia|lia|done].
  - assert (Hitems : items <> []) by (by destruct items).
    eapply runs_bind; [by apply runs_build_versions|]. intros _ _.
    eapply runs_bind; [apply runs_input|]. intros choice [_ Hpos'].
    eapply (runs_bind _ _ _ (pred (pred n)) _ (fun _ => True)).
    { case_bool_decide; [|by apply runs_ret].
      eapply (runs_bind _ _ _ _ _ (fun shuffled => shuffled <> [])).
      - apply runs_io_rand. intros g.
        destruct (shuffle_Permutation (copy items) g) as (p & Hsh & Hp).
        eexists _, _. split; [exact Hsh|].
        intros ->. apply Permutation_nil_l in Hp. done.
      - intros shuffled Hshuffled.
        eapply runs_bind; [apply runs_print|]. intros _ _.
        by apply runs_build_versions. }
    intros _ _. eapply runs_bind; [apply runs_print|]. intros _ _.
    eapply runs_weaken; [apply IH; lia|lia|done].
Qed.

End Runs.

(** ** The bound on the rounds does not matter *)

Section Agree.
Variables upper lower : str -> str.

Lemma agree_refl {A} (n : nat) (m : IO A) : agree n m m.
Proof. by intros w _. Qed.

Lemma agree_bind {A B} (m1 m2 : IO A) (k1 k2 : A -> IO B) (n n' : nat)
    (Q : A -> Prop) :
  agree n m1 m2 -> runs (fun _ => True) m1 n n' Q ->
  (forall a, Q a -> agree n' (k1 a) (k2 a)) ->
  agree n (io_bind m1 k1) (io_bind m2 k2).
Proof.
  intros Hm Hruns Hk w Hlen. unfold io_bind. rewrite <- (Hm w Hlen).
  specialize (Hruns w ltac:(by apply Forall_true) Hlen).
  destruct (m1 w) as [[a|e|] w1]; [|done|done].
  destruct Hruns as (_ & Hlen1 & Ha). by apply Hk.
Qed.

Lemma agree_weaken {A} (n n' : nat) (m1 m2 : IO A) :
  agree n' m1 m2 -> n <= n' -> agree n m1 m2.
Proof. intros Hm Hn w Hlen. apply Hm. lia. Qed.

Lemma agree_get_multiline_loop (fuel1 : nat) :
  forall (fuel2 n : nat) (items : list str),
  n < fuel1 -> n < fuel2 ->
  agree n (get_multiline_loop upper fuel1 items)
    (get_multiline_loop upper fuel2 items).
Proof.
  induction fuel1 as [|fuel1 IH]; intros [|fuel2] n items H1 H2; try lia.
  cbn [get_multiline_loop].
  eapply agree_bind; [apply agree_refl|apply runs_input|].
  intros raw [_ Hpos]. cbn zeta.
  case_bool_decide; [apply agree_refl|].
  case_bool_decide; apply IH; lia.
Qed.

Lemma agree_main_loop (descs : list str) (fuel1 : nat) :
  forall (fuel2 n : nat),
  n < fuel1 -> n < fuel2 ->
  agree n (main_loop upper lower fuel1 descs)
    (main_loop upper lower fuel2 descs).
Proof.
  induction fuel1 as [|fuel1 IH]; intros [|fuel2] n H1 H2; try lia.
  cbn [main_loop].
  eapply agree_bind; [apply agree_refl|apply runs_input|].
  intros raw [_ Hpos].
  case_bool_decide; [apply agree_refl|].
  eapply (agree_bind _ _ _ _ _ (pred n) (fun _ => True)).
  { case_bool_decide; [|apply agree_refl].
    eapply agree_bind; [apply agree_refl|apply runs_print|].
    intros _ _. apply agree_get_multiline_loop; lia. }
  { case_bool_decide; [apply runs_get_multiline_input; lia|by apply runs_ret]. }
  intros items _. case_bool_decide as Hempty.
  - eapply agree_bind; [apply agree_refl|apply runs_print|].
    intros _ _. apply IH; lia.
  - assert (Hitems : items <> []) by (by destruct items).
    eapply agree_bind;
      [apply agree_refl|by apply runs_build_versions|].
    intros _ _.
    eapply agree_bind; [apply agree_refl|apply runs_input|].
    intros choice [_ Hpos'].
    eapply (agree_bind _ _ _ _ _ (pred (pred n)) (fun _ => True));
      [apply agree_refl| |].
    { case_bool_decide; [|by apply runs_ret].
      eapply (runs_bind _ _ _ _ _ _ (fun shuffled => shuffled <> [])).
      - apply runs_io_rand. intros g.
        destruct (shuffle_Permutation (copy items) g) as (p & Hsh & Hp).
        eexists _, _. split; [exact Hsh|].
        intros ->. apply Permutation_nil_l in Hp. done.
      - intros shuffled Hshuffled.
        eapply runs_bind; [apply runs_print|]. intros _ _.
        by apply runs_build_versions. }
    intros _ _.
    eapply agree_bind; [apply agree_refl|apply runs_print|].
    intros _ _. apply IH; lia.
Qed.

End Agree.

(** X16. Given more rounds than there are lines on standard input, [main]
    ends in one of two ways, whatever the lines and the random draws: it
    returns, or it fails with [EOFError] because the input ran out.  No
    generator ever receives an empty item list, so nothing else is raised.
    What [main] does is the same for every such number of rounds. *)
Theorem main_ends (upper lower : str -> str) (fuel fuel' : nat) (w : world) :
  length (stdin w) < fuel ->
  length (stdin w) < fuel' ->
  main upper lower fuel w = main upper lower fuel' w /\
  ((main upper lower fuel w).1 = Done tt \/
   (main upper lower fuel w).1 = Failed EOFError).
Proof.
  intros Hfuel Hfuel'. split.
  { by apply (agree_main_loop upper lower descriptors fuel fuel'
                (length (stdin w))). }
  pose proof (runs_main_loop (fun _ => True) upper lower True descriptors
                fuel ltac:(done) (length (stdin w)) Hfuel w) as Hrun.
  unfold main.
  destruct (main_loop upper lower fuel descriptors w)
    as [[[]|[|e]|] w1]; cbn.
  - by left.
  - by right.
  - exfalso. apply Hrun; [by apply Forall_true|done].
  - exfalso. apply Hrun; [by apply Forall_true|done].
Qed.

Lemma main_ends_witness :
  main ascii_upper ascii_lower 4
    (World [lit "cat, dog"; lit ""; lit "Exit"] [] [2; 7; 1])
  = main ascii_upper ascii_lower 9
      (World [lit "cat, dog"; lit ""; lit "Exit"] [] [2; 7; 1]) /\
  ((main ascii_upper ascii_lower 4
      (World [lit "cat, dog"; lit ""; lit "Exit"] [] [2; 7; 1])).1 = Done tt \/
   (main ascii_upper ascii_lower 4
      (World [lit "cat, dog"; lit ""; lit "Exit"] [] [2; 7; 1])).1
     = Failed EOFError).
Proof. apply main_ends; cbn; lia. Defined.

(** X17. [main] returns only through ["exit"]: when no line on standard
    input is ["exit"] in lower case, it fails with [EOFError], whatever
    else the lines hold. *)
Theorem main_returns_only_on_exit (upper lower : str -> str) (fuel : nat)
    (w : world) :
  Forall (fun line => lower line <> lit "exit") (stdin w) ->
  length (stdin w) < fuel ->
  (main upper lower fuel w).1 = Failed EOFError.
Proof.
  intros Hlines Hfuel.
  pose proof (runs_main_loop (fun line => lower line <> lit "exit")
                upper lower False descriptors fuel ltac:(done)
                (length (stdin w)) Hfuel w Hlines ltac:(done)) as Hrun.
  unfold main.
  destruct (main_loop upper lower fuel descriptors w)
    as [[[]|[|e]|] w1]; cbn; [|done|done|done].
  by destruct Hrun as (_ & _ & ?).
Qed.

Lemma main_returns_only_on_exit_witness :
  (main ascii_upper ascii_lower 3
     (World [lit "cat, dog"; lit "random"] [] [2; 7; 1])).1
    = Failed EOFError.
Proof.
  apply main_returns_only_on_exit; [|cbn; lia].
  repeat apply Forall_cons_2; [..|apply Forall_nil_2]; by vm_compute.
Defined.

Lemma descriptors_clean : Forall clean_item descriptors.
Proof.
  assert (parse_input raw_descs = descriptors) as <- by (by vm_compute).
  apply Forall_forall. intros item Hitem.
  destruct (parse_input_item_piece _ _ Hitem) as (piece & -> & Hne & Hpiece).
  destruct (piece_no_delimiter _ _ Hpiece) as [Hcomma Hsemi].
  split; [done|]. split; [apply strip_idemp|].
  split; intros Hin%strip_elem_of; done.
Qed.

(** X19. Lines that yield no item cost nothing: for each of them [main]
    prints its notice and asks again, without drawing from the random
    generator; when ["exit"] follows, the session returns with the
    generator as it was and the lines after ["exit"] unread. *)
Theorem main_lines_without_items (upper lower : str -> str) (fuel : nat)
    (blanks : list str) (quit : str) (rest : list str) (out : str) (g : rng) :
  Forall (fun line =>
            parse_input line = [] /\
            lower line <> lit "exit" /\ lower line <> lit "multiline")
    blanks ->
  lower quit = lit "exit" ->
  length blanks < fuel ->
  main upper lower fuel (World (blanks ++ quit :: rest) out g)
  = (Done tt,
     World rest
       (out
        ++ mjoin (replicate (length blanks)
                    (main_prompt ++ no_items_notice ++ [10%N]))
        ++ main_prompt)
       g).
Proof.
  intros Hblanks Hquit. unfold main. revert fuel out.
  induction Hblanks as [|line blanks (Hnil & Hexit & Hmulti) _ IH];
    intros fuel out Hfuel.
  - destruct fuel as [|fuel]; [cbn in Hfuel; lia|].
    cbn [app main_loop].
    rewrite (io_bind_Done _ _ _ _ _ (input_line _ _ _ _ _)).
    by rewrite bool_decide_eq_true_2.
  - destruct fuel as [|fuel]; [cbn in Hfuel; lia|].
    cbn [app main_loop].
    rewrite (io_bind_Done _ _ _ _ _ (input_line _ _ _ _ _)).
    rewrite !bool_decide_eq_false_2 by done.
    erewrite io_bind_Done; [|reflexivity].
    rewrite Hnil, bool_decide_eq_true_2 by done.
    erewrite io_bind_Done; [|reflexivity]. cbn [stdin stdout generator].
    rewrite IH by (cbn in Hfuel; lia).
    cbn [length replicate]. do 2 f_equal.
    change (mjoin (?x :: ?l)) with (x ++ mjoin l).
    by rewrite <- !app_assoc.
Qed.

Lemma main_lines_without_items_witness :
  main ascii_upper ascii_lower 3
    (World ([lit " , ;"; lit ""] ++ lit "EXIT" :: [lit "cat"]) [] [6; 2])
  = (Done tt,
     World [lit "cat"]
       ([] ++ mjoin (replicate 2 (main_prompt ++ no_items_notice ++ [10%N]))
           ++ main_prompt)
       [6; 2]).
Proof.
  apply (main_lines_without_items ascii_upper ascii_lower 3
           [lit " , ;"; lit ""] (lit "EXIT") [lit "cat"] [] [6; 2]);
    [|by vm_compute|cbn; lia].
  repeat apply Forall_cons_2; [..|apply Forall_nil_2];
    (split; [by vm_compute|]; split; by vm_compute).
Defined.

(** ** The results are new list objects *)

(** X20. The list that [generate_bad_descriptor_list] or [combine_lists]
    returns is an object of its own: its address held no object before the
    call, so it is neither of the arguments, also when both arguments are
    one and the same list object, and changing it later cannot change
    them.  It holds the list that the function computes on values. *)
Theorem results_are_new_lists :
  (forall (h h' : Ref.store) (g g' : rng) (input_items descriptors r : Ref.loc)
          (items catalog : list str),
     h !! input_items = Some items ->
     h !! descriptors = Some catalog ->
     Ref.generate_bad_descriptor_list input_items descriptors h g
       = (Return r, h', g') ->
     h !! r = None /\ r <> input_items /\ r <> descriptors /\
     exists bad_terms,
       h' !! r = Some bad_terms /\
       generate_bad_descriptor_list items catalog g
         = Return (bad_terms, g')) /\
  (forall (h h' : Ref.store) (g g' : rng) (negated_list bad_list r : Ref.loc)
          (length_limit : Z) (combination_type : str)
          (negated bad : list str),
     h !! negated_list = Some negated ->
     h !! bad_list = Some bad ->
     Ref.combine_lists negated_list bad_list length_limit combination_type h g
       = (Return r, h', g') ->
     h !! r = None /\ r <> negated_list /\ r <> bad_list /\
     exists combined,
       h' !! r = Some combined /\
       combine_lists negated bad length_limit combination_type
         = Return combined).
Proof.
  split.
  - intros h h' g g' items_ref descs_ref r items catalog Hi Hd Hrun.
    pose proof (ref_generate_bad_descriptor_list h items_ref descs_ref
                  items catalog g Hi Hd) as Href.
    destruct (generate_bad_descriptor_list items catalog g)
      as [[bad g1]|e].
    + destruct Href as (permuted & Href). rewrite Href in Hrun.
      injection Hrun as <- <- <-.
      assert (Hnew : h !! S (length h) = None)
        by (apply lookup_ge_None_2; lia).
      repeat split; [done|congruence|congruence|].
      exists bad. split; [|done].
      rewrite (cons_middle permuted h), app_assoc.
      apply list_lookup_middle. rewrite length_app. cbn. lia.
    + destruct Href as (? & ? & ? & Href). by rewrite Href in Hrun.
  - intros h h' g g' neg_ref bad_ref r limit ctype negated bad Hn Hb Hrun.
    pose proof (ref_combine_lists h neg_ref bad_ref negated bad limit ctype g
                  Hn Hb) as Href.
    destruct (combine_lists negated bad limit ctype) as [combined|e].
    + destruct Href as (tests & Href). rewrite Href in Hrun.
      injection Hrun as <- <- <-.
      assert (Hnew : h !! length h = None) by (by apply lookup_ge_None_2).
      repeat split; [done|congruence|congruence|].
      exists combined. split; [|done]. by apply list_lookup_middle.
    + by rewrite Href in Hrun.
Qed.

Lemma results_are_new_lists_witness :
  [[lit "no a"; lit "X a"]] !! 1 = None /\
  exists combined,
    (Ref.combine_lists 0 0 30 (lit "negated_first")
       [[lit "no a"; lit "X a"]] []).1.2 !! 1 = Some combined /\
    combine_lists [lit "no a"; lit "X a"] [lit "no a"; lit "X a"] 30
      (lit "negated_first") = Return combined.
Proof.
  destruct (proj2 results_are_new_lists
              [[lit "no a"; lit "X a"]]
              (Ref.combine_lists 0 0 30 (lit "negated_first")
                 [[lit "no a"; lit "X a"]] []).1.2
              [] [] 0 0 1 30%Z (lit "negated_first")
              [lit "no a"; lit "X a"] [lit "no a"; lit "X a"])
    as (Hnew & _ & _ & Hcontent); [reflexivity|reflexivity|reflexivity|].
  by split.
Defined.
